(** * Browser Vigilant: the URL feature extractor of [model/features.py]

    A shallow embedding of [features.py], and of the part of [train.py]
    that assembles the data set from it ([extract_all], the fallback corpus
    and the deduplication of [build_dataset]), with the proofs of the
    properties the specification states and of further properties of the
    code. The loaders, the training and the export of [train.py] are calls
    into pandas, scikit-learn and ONNX and are left out.

    Conventions of the embedding.
    - A Python [str] is a list of characters. Characters are the 256 code
      points below U+0100 (the type [ascii] read as Latin-1), with Python's
      [isalpha], [isdigit] and [lower] on that range.
    - A Python [float] is a real number: rounding is not modelled, the
      operations that raise ([/] by zero, [math.log2] outside its domain) are.
      Where the rounding decides a property, the entropy functions are given
      a second time on binary64 numbers (module [Binary64]).
    - Code that can raise lives in the error monad [result]; [try]/[except]
      is [catch].
    - [urllib.parse.urlparse] is library code: the extractor is parametrised
      by it, and a reference model of it is given for the concrete inputs.
    - Iterating over a Python [set] visits its elements in an order the
      language leaves open: the extractor is parametrised by that order. *)

From Stdlib Require Import Ascii String.
From Stdlib Require Import List Bool Arith NArith ZArith Lia Reals Lra Permutation.
From Stdlib Require Import SpecFloat.
Import ListNotations.

Set Implicit Arguments.

(** ** Exceptions *)

Inductive exn : Type :=
  ValueError | ZeroDivisionError | IndexError | AssertionError.

Inductive result (A : Type) : Type :=
| Ok (a : A)
| Raise (e : exn).

Arguments Ok {A} a.
Arguments Raise {A} e.

Definition bind {A B : Type} (m : result A) (k : A -> result B) : result B :=
  match m with
  | Ok a => k a
  | Raise e => Raise e
  end.

(** [try: m except Exception: h] *)
Definition catch {A : Type} (m : result A) (h : A) : A :=
  match m with
  | Ok a => a
  | Raise _ => h
  end.

Declare Scope py_scope.
Delimit Scope py_scope with py.
Notation "x <- m ;; k" := (bind m (fun x => k))
  (at level 61, m at next level, right associativity) : py_scope.
Open Scope py_scope.

(** [for x in xs: s = body x s], stopping at the first exception. *)
Fixpoint for_each {A S : Type} (xs : list A) (s : S) (body : A -> S -> result S)
  : result S :=
  match xs with
  | [] => Ok s
  | x :: xs' => s' <- body x s ;; for_each xs' s' body
  end.

(** [[f x for x in xs]] for a fallible [f]. *)
Fixpoint map_r {A B : Type} (f : A -> result B) (xs : list A) : result (list B) :=
  match xs with
  | [] => Ok []
  | x :: xs' => y <- f x ;; ys <- map_r f xs' ;; Ok (y :: ys)
  end.

(** [l[i]] and [l[i] = v] with Python's bounds check. *)
Definition getitem {A : Type} (l : list A) (i : nat) : result A :=
  match nth_error l i with
  | Some x => Ok x
  | None => Raise IndexError
  end.

Definition setitem {A : Type} (l : list A) (i : nat) (v : A) : result (list A) :=
  if i <? length l then Ok (firstn i l ++ v :: skipn (S i) l)
  else Raise IndexError.

(** ** Characters and strings *)

Definition str : Type := list ascii.

Coercion list_ascii_of_string : string >-> list.

Definition code (c : ascii) : nat := nat_of_ascii c.

Definition between (lo hi : nat) (c : ascii) : bool :=
  (lo <=? code c) && (code c <=? hi).

Definition is_upper_ascii : ascii -> bool := between 65 90.
Definition is_lower_ascii : ascii -> bool := between 97 122.
Definition is_alpha_ascii (c : ascii) : bool := is_upper_ascii c || is_lower_ascii c.
(** [0-9], also the decimal digits [\d] of the range. *)
Definition is_decimal : ascii -> bool := between 48 57.
Definition is_alnum_ascii (c : ascii) : bool := is_alpha_ascii c || is_decimal c.

(** [c.isalpha()]: the letters below U+0100. *)
Definition isalpha (c : ascii) : bool :=
  is_alpha_ascii c
  || (code c =? 170) || (code c =? 181) || (code c =? 186)
  || between 192 214 c || between 216 246 c || between 248 255 c.

(** [c.isdigit()]: decimal digits and the superscripts U+00B2, U+00B3, U+00B9. *)
Definition isdigit (c : ascii) : bool :=
  is_decimal c || (code c =? 178) || (code c =? 179) || (code c =? 185).

(** Word characters of [re] ([\w]): alphanumerics (letters, digits, the
    vulgar fractions U+00BC..U+00BE) and the underscore. *)
Definition is_word (c : ascii) : bool :=
  isalpha c || isdigit c || between 188 190 c || (code c =? 95).

(** [c.lower()] *)
Definition lower_chr (c : ascii) : ascii :=
  if is_upper_ascii c || between 192 214 c || between 216 222 c
  then ascii_of_nat (code c + 32) else c.

Definition lower (s : str) : str := map lower_chr s.

Definition chr_eqb : ascii -> ascii -> bool := Ascii.eqb.

Fixpoint str_eqb (a b : str) : bool :=
  match a, b with
  | [], [] => true
  | x :: a', y :: b' => chr_eqb x y && str_eqb a' b'
  | _, _ => false
  end.

Definition str_eq_dec : forall a b : str, {a = b} + {a <> b} :=
  list_eq_dec ascii_dec.

(** [s.startswith(p)] *)
Fixpoint startswith (p s : str) : bool :=
  match p, s with
  | [], _ => true
  | x :: p', y :: s' => chr_eqb x y && startswith p' s'
  | _ :: _, [] => false
  end.

(** [s.find(sub)]: the index of the first occurrence. *)
Fixpoint find (sub s : str) : option nat :=
  if startswith sub s then Some 0
  else match s with
       | [] => None
       | _ :: s' => option_map S (find sub s')
       end.

(** [sub in s] *)
Definition contains (sub s : str) : bool :=
  match find sub s with Some _ => true | None => false end.

(** [c in s] for a character, and [x in xs] for a string in a list or set. *)
Definition chr_in (c : ascii) (s : str) : bool := existsb (chr_eqb c) s.
Definition str_in (x : str) (xs : list str) : bool := existsb (str_eqb x) xs.

(** [s.count(c)] for a one-character [c]. *)
Definition count_chr (c : ascii) (s : str) : nat :=
  length (filter (chr_eqb c) s).

(** [sum(1 for c in s if p(c))] *)
Definition count_if {A : Type} (p : A -> bool) (l : list A) : nat :=
  length (filter p l).

(** [s.split(c)] for a one-character separator. *)
Fixpoint split_chr (c : ascii) (s : str) : list str :=
  match s with
  | [] => [[]]
  | x :: s' =>
      if chr_eqb x c then [] :: split_chr c s'
      else match split_chr c s' with
           | w :: ws => (x :: w) :: ws
           | [] => [[x]]
           end
  end.

(** [c.join(parts)] *)
Fixpoint join (c : ascii) (parts : list str) : str :=
  match parts with
  | [] => []
  | [w] => w
  | w :: ws => w ++ c :: join c ws
  end.

(** [s.partition(c)]: the text before the first [c], whether [c] was found,
    the text after it. *)
Fixpoint partition_chr (c : ascii) (s : str) : str * bool * str :=
  match s with
  | [] => ([], false, [])
  | x :: s' =>
      if chr_eqb x c then ([], true, s')
      else let '(a, found, b) := partition_chr c s' in (x :: a, found, b)
  end.

(** [s.split(sep, 1)[-1]]: what follows the first occurrence of [sep], the
    whole of [s] when there is none. *)
Definition after_first (sep s : str) : str :=
  match find sep s with
  | Some i => skipn (i + length sep) s
  | None => s
  end.

(** [l[-1]], [l[-2:]] and [l[:-2]] *)
Definition last_item {A : Type} (l : list A) : result A :=
  match l with
  | [] => Raise IndexError
  | _ => getitem l (length l - 1)
  end.
Definition last_two {A : Type} (l : list A) : list A := skipn (length l - 2) l.
Definition but_last_two {A : Type} (l : list A) : list A := firstn (length l - 2) l.

(** [s.lstrip(chars)] *)
Fixpoint lstrip (p : ascii -> bool) (s : str) : str :=
  match s with
  | c :: s' => if p c then lstrip p s' else s
  | [] => []
  end.

(** [c.isspace()]: the white space below U+0100. *)
Definition isspace (c : ascii) : bool :=
  between 9 13 c || between 28 32 c || (code c =? 133) || (code c =? 160).

(** [s.strip()] *)
Definition strip (s : str) : str :=
  rev (lstrip isspace (rev (lstrip isspace s))).

(** [s.isdigit()] *)
Definition str_isdigit (s : str) : bool :=
  match s with
  | [] => false
  | _ => forallb isdigit s
  end.

(** [int(s)] for a string of digits: the superscript digits are not decimal
    digits and raise, as does a literal beyond the interpreter's limit of
    4300 digits. *)
Definition digit_val (c : ascii) : N := N.of_nat (code c - 48).

Definition py_int (s : str) : result N :=
  if forallb is_decimal s && negb (4300 <? length s) && negb (length s =? 0)
  then Ok (fold_left (fun acc c => (10 * acc + digit_val c)%N) s 0%N)
  else Raise ValueError.

(** The distinct elements of a list: the elements of the [set] made of it. *)
Definition distinct_chr (s : str) : list ascii := nodup ascii_dec s.
Definition distinct_str (l : list str) : list str := nodup str_eq_dec l.

(** ** Floats *)

Open Scope R_scope.

Definition flag (b : bool) : R := if b then 1 else 0.

(** [a / b] *)
Definition truediv (a b : R) : result R :=
  if Req_dec_T b 0 then Raise ZeroDivisionError else Ok (a / b).

(** [math.log2(x)] *)
Definition log2 (x : R) : result R :=
  if Rle_dec x 0 then Raise ValueError else Ok (ln x / ln 2).

(** [sum(xs)] *)
Definition py_sum (xs : list R) : R := fold_left Rplus xs 0.

Close Scope R_scope.

(** ** Constants of [features.py] *)

Definition strs (l : list string) : list str := map list_ascii_of_string l.

Definition BRANDS : list str := strs
  [ "google"; "facebook"; "amazon"; "apple"; "microsoft"; "paypal"; "netflix";
    "instagram"; "twitter"; "linkedin"; "whatsapp"; "youtube"; "yahoo"; "ebay";
    "dropbox"; "spotify"; "adobe"; "chase"; "wellsfargo"; "bankofamerica";
    "citi"; "hsbc"; "barclays"; "halifax"; "natwest"; "santander"; "lloyds";
    "steam"; "roblox"; "epic"; "coinbase"; "binance"; "metamask"; "opensea";
    "paytm"; "phonepe"; "gpay"; "bhim"; "razorpay"; "hdfc"; "icici"; "sbi";
    "axis"; "kotak"; "airtel"; "jio"; "vodafone"; "bsnl"; "flipkart"; "myntra" ]%string.

Definition SUSPICIOUS_TLDS : list str := strs
  [ "xyz"; "tk"; "top"; "cf"; "ml"; "ga"; "gq"; "pw"; "cc"; "icu"; "club"; "online";
    "site"; "website"; "space"; "live"; "click"; "link"; "info"; "biz"; "work";
    "tech"; "store"; "shop"; "ru"; "cn"; "vip"; "win"; "loan"; "download" ]%string.

Definition LEGIT_UPI_HANDLES : list str := strs
  [ "okaxis"; "okicici"; "oksbi"; "okhdfcbank"; "ybl"; "ibl"; "axl"; "apl"; "fbl";
    "upi"; "paytm"; "waaxis"; "waxis"; "rajgovhdfcbank"; "barodampay"; "allbank";
    "andb"; "aubank"; "cnrb"; "csbpay"; "dbs"; "dcb"; "federal"; "hdfcbank"; "idbi";
    "idfc"; "indus"; "idfcbank"; "jio"; "kotak"; "lvb"; "mahb"; "nsdl"; "pnb";
    "psb"; "rbl"; "sib"; "tjsb"; "uco"; "union"; "united"; "vijb"; "yapl"; "airtel";
    "airtelpaymentsbank"; "postbank" ]%string.

Definition SHORT_URL_SERVICES : list str := strs
  [ "bit.ly"; "tinyurl.com"; "t.co"; "goo.gl"; "ow.ly"; "is.gd"; "buff.ly";
    "adf.ly"; "tiny.cc"; "clck.ru"; "cutt.ly"; "rb.gy"; "short.io"; "v.gd";
    "bitly.com"; "shorte.st"; "t2m.io" ]%string.

Definition DANGEROUS_EXTENSIONS : list str := strs
  [ "exe"; "scr"; "bat"; "cmd"; "ps1"; "vbs"; "wsf"; "hta"; "jar"; "msi"; "msp";
    "reg"; "dll"; "pif"; "com"; "cpl"; "inf"; "apk"; "ipa"; "dmg"; "pkg"; "deb"; "rpm" ]%string.

(** ** Math helpers *)

(** A [dict] with counts as values: the items in insertion order. *)
Section Dict.
Variable K : Type.
Variable eqb : K -> K -> bool.

Fixpoint dict_get (d : list (K * nat)) (k : K) (default : nat) : nat :=
  match d with
  | [] => default
  | (k', v) :: d' => if eqb k' k then v else dict_get d' k default
  end.

Fixpoint dict_set (d : list (K * nat)) (k : K) (v : nat) : list (K * nat) :=
  match d with
  | [] => [(k, v)]
  | (k', v') :: d' =>
      if eqb k' k then (k', v) :: d' else (k', v') :: dict_set d' k v
  end.

Definition dict_values (d : list (K * nat)) : list nat := map snd d.

(** [for x in xs: freq[x] = freq.get(x, 0) + 1] *)
Definition tally (xs : list K) : list (K * nat) :=
  fold_left (fun freq x => dict_set freq x (dict_get freq x 0 + 1)) xs [].
End Dict.

(** [-sum((f / n) * math.log2(f / n) for f in values)] *)
Definition entropy_sum (values : list nat) (n : nat) : result R :=
  terms <- map_r (fun f =>
             p <- truediv (INR f) (INR n) ;;
             q <- truediv (INR f) (INR n) ;;
             l <- log2 q ;;
             Ok (p * l)%R) values ;;
  Ok (- py_sum terms)%R.

Definition shannon_entropy (s : str) : result R :=
  match s with
  | [] => Ok 0%R
  | _ =>
      let freq := tally chr_eqb s in
      let n := length s in
      entropy_sum (dict_values freq) n
  end.

Definition levenshtein (a b : str) : result nat :=
  let '(a, b) := if length a <? length b then (b, a) else (a, b) in
  let m := length a in
  let n := length b in
  let prev := seq 0 (n + 1) in
  prev <- for_each (seq 1 m) prev (fun i prev =>
    let curr := i :: repeat 0 n in
    for_each (seq 1 n) curr (fun j curr =>
      ai <- getitem a (i - 1) ;;
      bj <- getitem b (j - 1) ;;
      let cost := if chr_eqb ai bj then 0 else 1 in
      up <- getitem prev j ;;
      left <- getitem curr (j - 1) ;;
      diag <- getitem prev (j - 1) ;;
      setitem curr j (Nat.min (up + 1) (Nat.min (left + 1) (diag + cost))))) ;;
  getitem prev n.

(** [min(xs)] *)
Definition py_min (xs : list nat) : result nat :=
  match xs with
  | [] => Raise ValueError
  | x :: xs' => Ok (fold_left Nat.min xs' x)
  end.

Definition min_brand_distance (domain : str) : result nat :=
  core <- getitem (split_chr "." domain) 0 ;;
  let core := lower core in
  ds <- map_r (fun b => levenshtein core b) BRANDS ;;
  py_min ds.

Definition max_consecutive_consonants (s : str) : nat :=
  let vowels : str := "aeiou"%string in
  fst (fold_left (fun '(max_run, cur) c =>
         if isalpha c && negb (chr_in c vowels)
         then (Nat.max max_run (cur + 1), cur + 1)
         else (max_run, 0))
       (lower s) (0, 0)).

(** [s[i:i+n]] *)
Definition slice (s : str) (i n : nat) : str := firstn n (skipn i s).

Definition char_ngram_entropy (s : str) (n : nat) : result R :=
  if length s <? n then Ok 0%R
  else
    let ngrams := map (fun i => slice s i n) (seq 0 (length s - n + 1)) in
    let freq := tally str_eqb ngrams in
    let total := length ngrams in
    entropy_sum (dict_values freq) total.

(** ** Regular expressions

    The fragment of Python's [re] the extractor uses, with [re]'s
    backtracking order: a repetition is greedy, an alternation tries its
    left branch first, a search returns the leftmost match. [Rep cls lo hi]
    is [[cls]{lo,hi}], [Grp] the capturing group, [WordB] is [\b] and [EndS]
    is [$]. *)

Inductive regex : Type :=
| Eps
| Chr (cls : ascii -> bool)
| Seq (r1 r2 : regex)
| Alt (r1 r2 : regex)
| Rep (cls : ascii -> bool) (lo : nat) (hi : option nat)
| Grp (r : regex)
| WordB
| EndS.

(** What a successful match leaves: the rest of the subject and group 1. *)
Definition outcome : Type := (str * option str)%type.

(** A continuation gets the character before the position, the rest of the
    subject and group 1. *)
Definition cont : Type := option ascii -> str -> option str -> option outcome.

Definition or_else {A : Type} (a b : option A) : option A :=
  match a with Some _ => a | None => b end.

Definition is_word_opt (c : option ascii) : bool :=
  match c with Some x => is_word x | None => false end.

Fixpoint rep (cls : ascii -> bool) (lo : nat) (hi : option nat)
    (prev : option ascii) (s : str) (g : option str) (k : cont) {struct s}
  : option outcome :=
  let stop := if lo =? 0 then k prev s g else None in
  match hi, s with
  | Some 0, _ => stop
  | _, c :: s' =>
      if cls c
      then or_else (rep cls (lo - 1) (option_map pred hi) (Some c) s' g k) stop
      else stop
  | _, [] => stop
  end.

Fixpoint rmatch (r : regex) (prev : option ascii) (s : str) (g : option str)
    (k : cont) {struct r} : option outcome :=
  match r with
  | Eps => k prev s g
  | Chr cls =>
      match s with
      | c :: s' => if cls c then k (Some c) s' g else None
      | [] => None
      end
  | Seq r1 r2 => rmatch r1 prev s g (fun p' s' g' => rmatch r2 p' s' g' k)
  | Alt r1 r2 => or_else (rmatch r1 prev s g k) (rmatch r2 prev s g k)
  | Rep cls lo hi => rep cls lo hi prev s g k
  | Grp r1 =>
      rmatch r1 prev s g
        (fun p' s' _ => k p' s' (Some (firstn (length s - length s') s)))
  | WordB =>
      if xorb (is_word_opt prev) (is_word_opt (hd_error s)) then k prev s g
      else None
  | EndS =>
      match s with
      | [] => k prev s g
      | [c] => if chr_eqb c "010" then k prev s g else None
      | _ => None
      end
  end.

(** A match at the current position: the matched text and group 1. *)
Definition match_here (r : regex) (prev : option ascii) (s : str)
  : option (str * option str) :=
  match rmatch r prev s None (fun _ s' g => Some (s', g)) with
  | Some (rest, g) => Some (firstn (length s - length rest) s, g)
  | None => None
  end.

Fixpoint search_from (r : regex) (prev : option ascii) (s : str)
  : option (str * option str) :=
  match match_here r prev s with
  | Some m => Some m
  | None =>
      match s with
      | [] => None
      | c :: s' => search_from r (Some c) s'
      end
  end.

(** [re.search(r, s)] *)
Definition re_search (r : regex) (s : str) : option (str * option str) :=
  search_from r None s.

(** [re.fullmatch(r, s)] *)
Definition re_fullmatch (r : regex) (s : str) : bool :=
  match rmatch r None s None
          (fun _ s' g => match s' with [] => Some (s', g) | _ => None end) with
  | Some _ => true
  | None => false
  end.

(** The texts of the non-overlapping matches, left to right; [skip] counts
    the characters of the last match still to step over. *)
Fixpoint finditer_from (r : regex) (skip : nat) (prev : option ascii) (s : str)
    {struct s} : list str :=
  match skip with
  | S k =>
      match s with
      | [] => []
      | c :: s' => finditer_from r k (Some c) s'
      end
  | 0 =>
      match match_here r prev s with
      | Some (m, _) =>
          m :: match s with
               | [] => []
               | c :: s' => finditer_from r (length m - 1) (Some c) s'
               end
      | None =>
          match s with
          | [] => []
          | c :: s' => finditer_from r 0 (Some c) s'
          end
      end
  end.

(** [[m.group() for m in r.finditer(s)]], also [re.findall(r, s)] for a
    pattern without groups. *)
Definition re_finditer (r : regex) (s : str) : list str :=
  finditer_from r 0 None s.

Definition found {A : Type} (m : option A) : bool :=
  match m with Some _ => true | None => false end.

(** Character classes and literals. *)
Definition one (c : ascii) : ascii -> bool := chr_eqb c.
Definition one_i (c : ascii) : ascii -> bool :=
  fun x => chr_eqb (lower_chr x) (lower_chr c).
Definition any_of (s : string) : ascii -> bool := fun x => chr_in x s.
Definition is_hex (c : ascii) : bool :=
  is_decimal c || between 97 102 c || between 65 70 c.
Definition is_hex_lower (c : ascii) : bool := between 97 102 c || is_decimal c.
Definition not_newline (c : ascii) : bool := negb (chr_eqb c "010").

Fixpoint lit_with (cls : ascii -> ascii -> bool) (s : str) : regex :=
  match s with
  | [] => Eps
  | [c] => Chr (cls c)
  | c :: s' => Seq (Chr (cls c)) (lit_with cls s')
  end.
Definition lit (s : string) : regex := lit_with one s.
Definition lit_i (s : string) : regex := lit_with one_i s.

Fixpoint alts (rs : list regex) : regex :=
  match rs with
  | [] => Eps
  | [r] => r
  | r :: rs' => Alt r (alts rs')
  end.

Definition plus (cls : ascii -> bool) : regex := Rep cls 1 None.

Open Scope string_scope.

(** [\b(?:\d{1,3}\.){3}\d{1,3}\b] *)
Definition ip_re : regex :=
  let octet := Rep is_decimal 1 (Some 3) in
  let group := Seq octet (Chr (one ".")) in
  Seq WordB (Seq group (Seq group (Seq group (Seq octet WordB)))).

(** [\.(pdf|doc|jpg|jpeg|png|gif|mp4|zip)\.(exe|js|php|bat|ps1|vbs|cmd|scr)]
    with [re.I] *)
Definition dbl_re : regex :=
  Seq (Chr (one "."))
   (Seq (alts (map lit_i ["pdf"; "doc"; "jpg"; "jpeg"; "png"; "gif"; "mp4"; "zip"]))
    (Seq (Chr (one "."))
         (alts (map lit_i ["exe"; "js"; "php"; "bat"; "ps1"; "vbs"; "cmd"; "scr"])))).

(** [%[0-9a-fA-F]{2}] *)
Definition pct_re : regex := Seq (Chr (one "%")) (Rep is_hex 2 (Some 2)).

(** [[\d.]+] *)
Definition numeric_re : regex :=
  plus (fun c => is_decimal c || chr_eqb c ".").

(** [[A-Za-z0-9+/]{20,}={0,2}] *)
Definition base64_re : regex :=
  Seq (Rep (fun c => is_alnum_ascii c || chr_in c "+/") 20 None)
      (Rep (one "=") 0 (Some 2)).

(** [[a-zA-Z0-9._-]+@[a-zA-Z]+] *)
Definition upi_local (c : ascii) : bool := is_alnum_ascii c || chr_in c "._-".
Definition upi_re : regex :=
  Seq (plus upi_local) (Seq (Chr (one "@")) (plus is_alpha_ascii)).

(** [upi://pay|pa=.*@|vpa=] *)
Definition collect_re : regex :=
  alts [ lit "upi://pay";
         Seq (lit "pa=") (Seq (Rep not_newline 0 None) (Chr (one "@")));
         lit "vpa=" ].

(** [\.([a-zA-Z0-9]{1,5})(?:[?#]|$)] *)
Definition ext_re : regex :=
  Seq (Chr (one "."))
      (Seq (Grp (Rep is_alnum_ascii 1 (Some 5)))
           (Alt (Chr (any_of "?#")) EndS)).

(** [/(wp-admin|admin|phpmyadmin|cgi-bin)/] *)
Definition admin_re : regex :=
  Seq (Chr (one "/"))
      (Seq (alts (map lit ["wp-admin"; "admin"; "phpmyadmin"; "cgi-bin"]))
           (Chr (one "/"))).

(** [(redirect|returnurl|continue|next|goto|url)=http] with [re.I] *)
Definition redirect_re : regex :=
  Seq (alts (map lit_i ["redirect"; "returnurl"; "continue"; "next"; "goto"; "url"]))
      (lit_i "=http").

(** [[a-f0-9]{32,}] *)
Definition hex_re : regex := Rep is_hex_lower 32 None.

Close Scope string_scope.

(** ** [urllib.parse]

    What [urlparse] returns: the six components of a URL. *)

Record ParseResult : Type := {
  url_scheme : str;
  url_netloc : str;
  url_path : str;
  url_params : str;
  url_query : str;
  url_fragment : str
}.

(** A reference model of CPython's [urllib.parse.urlparse] on strings, as
    of the maintenance releases of 3.11 and 3.12 that validate a bracketed
    host: leading C0 controls and spaces are stripped, tabs and newlines
    removed, the scheme, the authority after [//], the fragment, the query
    and the parameters of the last path segment split off. It raises on an
    authority with one square bracket but not the other, and on one with
    both unless the host opens with the bracket, nothing but a port follows
    the closing one, and the text between them is an IPv6 address as module
    [ipaddress] reads it or an IPvFuture one. The last check of [urlsplit],
    on the NFKC form of a non-ASCII authority, rejects no character below
    U+0100 and is left out. The properties below that hold for every URL are
    proved for an arbitrary [urlparse], so they do not depend on the
    model. *)
Module UrlLib.

Open Scope string_scope.

Definition scheme_chars (c : ascii) : bool := is_alnum_ascii c || chr_in c "+-.".

Definition uses_params : list str := strs
  [ ""; "ftp"; "hdl"; "prospero"; "http"; "imap"; "https"; "shttp"; "rtsp";
    "rtspu"; "sip"; "sips"; "mms"; "sftp"; "tel" ].

(** The longest prefix of characters satisfying [p], and the rest. *)
Fixpoint span (p : ascii -> bool) (s : str) : str * str :=
  match s with
  | c :: s' => if p c then let '(a, b) := span p s' in (c :: a, b) else ([], s)
  | [] => ([], [])
  end.

(** [_splitnetloc(url, 2)] *)
Definition splitnetloc (url : str) : str * str :=
  span (fun c => negb (chr_in c "/?#")) (skipn 2 url).

(** [_splitparams(url)], for a [url] that holds a [;]. *)
Definition splitparams (url : str) : str * str :=
  if chr_in "/" url then
    (* url = head ++ "/" ++ tail with no "/" in tail *)
    let '(rtail, _, rhead) := partition_chr "/" (rev url) in
    let tail := rev rtail in
    let head := (rev rhead ++ ["/"%char])%list in
    let '(a, has_semi, b) := partition_chr ";" tail in
    if has_semi then ((head ++ a)%list, b) else (url, [])
  else
    let '(a, _, b) := partition_chr ";" url in (a, b).

(** [ipaddress.IPv4Address(s)] accepts [s]: four octets, each of one to
    three ASCII digits, without a leading zero, at most 255. *)
Definition octet_ok (o : str) : bool :=
  match o with
  | [] => false
  | c :: _ =>
      if forallb is_decimal o && (length o <=? 3)%nat
         && (str_eqb o "0" || negb (chr_eqb c "0"))
      then (fold_left (fun n d => 10 * n + (code d - 48)) o 0 <=? 255)%nat
      else false
  end.

Definition ipv4_ok (s : str) : bool :=
  negb (chr_in "/" s)
  && match s with [] => false | _ => true end
  && let octets := split_chr "." s in
     (length octets =? 4)%nat && forallb octet_ok octets.

(** [_parse_hextet(h)] returns: one to four hexadecimal digits. *)
Definition hextet_ok (h : str) : bool :=
  forallb is_hex h && (length h <=? 4)%nat && negb (length h =? 0)%nat.

(** [_ip_int_from_string(addr)] of an IPv6 address returns. An IPv4 suffix
    stands for two hextets; the one empty part away from both ends is the
    [::], which may take an empty first or last part with it and must leave
    at most seven hextets. *)
Definition ipv6_parts_ok (addr : str) : bool :=
  match addr with
  | [] => false
  | _ =>
      let parts := split_chr ":" addr in
      if (length parts <? 3)%nat then false
      else
        let tail := last parts [] in
        let suffix_ok := if chr_in "." tail then ipv4_ok tail else true in
        let parts := if chr_in "." tail
                     then (removelast parts ++ strs ["0"; "0"])%list else parts in
        let n := length parts in
        if negb suffix_ok || (9 <? n)%nat then false
        else
          let first_empty := (length (hd [] parts) =? 0)%nat in
          let last_empty := (length (last parts []) =? 0)%nat in
          match filter (fun i => (length (nth i parts []) =? 0)%nat)
                       (seq 1 (n - 2)) with
          | [] =>
              (n =? 8)%nat && negb first_empty && negb last_empty
              && forallb hextet_ok parts
          | [skip_index] =>
              let parts_hi := if first_empty then skip_index - 1 else skip_index in
              let parts_lo := if last_empty then n - skip_index - 1 - 1
                              else n - skip_index - 1 in
              if first_empty && negb (parts_hi =? 0)%nat then false
              else if last_empty && negb (parts_lo =? 0)%nat then false
              else if (8 <=? parts_hi + parts_lo)%nat then false
              else forallb hextet_ok (firstn parts_hi parts)
                   && forallb hextet_ok (skipn (n - parts_lo) parts)
          | _ => false
          end
  end.

(** [ipaddress.IPv6Address(s)] accepts [s]: no [/], a scope after [%] that
    is neither empty nor holds another [%], and the address before it. *)
Definition ipv6_ok (s : str) : bool :=
  if chr_in "/" s then false
  else
    let '(addr, sep, scope_id) := partition_chr "%" s in
    if sep && ((length scope_id =? 0)%nat || chr_in "%" scope_id) then false
    else ipv6_parts_ok addr.

(** [_check_bracketed_host(hostname)] returns: an IPvFuture address
    ([v], hexadecimal digits, a dot and more), or an address that
    [ipaddress.ip_address] reads and that is not an IPv4 one. *)
Definition bracketed_host_ok (hostname : str) : bool :=
  if startswith "v" hostname
  then
    let '(digits, rest) := span is_hex (skipn 1 hostname) in
    match digits, rest with
    | _ :: _, dot :: more =>
        chr_eqb dot "."
        && match more with [] => false | _ => forallb not_newline more end
    | _, _ => false
    end
  else negb (ipv4_ok hostname) && ipv6_ok hostname.

(** [_check_bracketed_netloc(netloc)] returns. *)
Definition bracketed_netloc_ok (netloc : str) : bool :=
  let hostname_and_port := last (split_chr "@" netloc) [] in
  let '(before_bracket, have_open_br, bracketed) :=
    partition_chr "[" hostname_and_port in
  if have_open_br
  then
    match before_bracket with
    | _ :: _ => false
    | [] =>
        let '(hostname, _, port) := partition_chr "]" bracketed in
        match port with
        | c :: _ => chr_eqb c ":" && bracketed_host_ok hostname
        | [] => bracketed_host_ok hostname
        end
    end
  else
    let '(hostname, _, _) := partition_chr ":" hostname_and_port in
    bracketed_host_ok hostname.

Definition urlsplit (url : str) : result (str * str * str * str * str) :=
  let url := lstrip (fun c => (code c <=? 32)%nat) url in
  let url := filter (fun c => negb (chr_in c [ "009"; "013"; "010" ]%char)) url in
  let '(scheme, url) :=
    match find ":" url with
    | Some i =>
        if (0 <? i)%nat && is_alpha_ascii (hd " "%char url)
           && forallb scheme_chars (firstn i url)
        then (lower (firstn i url), skipn (i + 1) url)
        else ([], url)
    | None => ([], url)
    end in
  r <- (if startswith "//" url then
          let '(netloc, rest) := splitnetloc url in
          if xorb (chr_in "[" netloc) (chr_in "]" netloc)
          then Raise ValueError
          else if chr_in "[" netloc && chr_in "]" netloc
                  && negb (bracketed_netloc_ok netloc)
          then Raise ValueError
          else Ok (netloc, rest)
        else Ok ([], url)) ;;
  let '(netloc, url) := r in
  let '(url, fragment) :=
    if chr_in "#" url
    then let '(a, _, b) := partition_chr "#" url in (a, b) else (url, []) in
  let '(url, query) :=
    if chr_in "?" url
    then let '(a, _, b) := partition_chr "?" url in (a, b) else (url, []) in
  Ok (scheme, netloc, url, query, fragment).

Definition urlparse (url : str) : result ParseResult :=
  r <- urlsplit url ;;
  let '(scheme, netloc, url, query, fragment) := r in
  let '(url, params) :=
    if str_in scheme uses_params && chr_in ";" url
    then splitparams url else (url, []) in
  Ok {| url_scheme := scheme; url_netloc := netloc; url_path := url;
        url_params := params; url_query := query; url_fragment := fragment |}.

Close Scope string_scope.

End UrlLib.

(** ** The parsed URL *)

(** The [dict] that [parse_url_parts] returns, one field per key. *)
Record ParsedURL : Type := {
  scheme : str;
  host : str;
  path : str;
  query : str;
  fragment : str;
  port : option N;
  tld : str;
  registered_domain : str;
  subdomain : str;
  labels : list str
}.

Definition nonempty {A : Type} (l : list A) : bool :=
  match l with [] => false | _ => true end.

(** [any(f(x) for x in xs)] for a fallible [f] over a list. *)
Fixpoint any_r {A : Type} (f : A -> result bool) (xs : list A) : result bool :=
  match xs with
  | [] => Ok false
  | x :: xs' => b <- f x ;; if b then Ok true else any_r f xs'
  end.

(** [max(xs, default=d)] *)
Definition py_max_default (xs : list nat) (d : nat) : nat :=
  match xs with
  | [] => d
  | x :: xs' => fold_left Nat.max xs' x
  end.

(** A set literal: its distinct elements. *)
Definition set_of (l : list string) : list str := distinct_str (strs l).

(** ** The extractor *)

Section Extractor.

(** [urllib.parse.urlparse]: the components of the URL, or the exception
    it raises. *)
Variable urlparse : str -> result ParseResult.

(** The order in which iterating over a set with the given elements
    visits them. *)
Variable set_iter : forall A : Type, list A -> list A.

(** [any(p(k) for k in kws)] and [sum(1 for k in kws if p(k))] over a set. *)
Definition any_in (p : str -> bool) (kws : list str) : bool :=
  existsb p (set_iter kws).
Definition hits_in (p : str -> bool) (kws : list str) : nat :=
  count_if p (set_iter kws).

Open Scope string_scope.

Definition parse_url_parts (url : str) : ParsedURL :=
  catch
    (p <- urlparse url ;;
     let netloc := lower (url_netloc p) in
     host_port <- last_item (split_chr "@" netloc) ;;
     let '(host, _, port_str) := partition_chr ":" host_port in
     port <- (if str_isdigit port_str
              then n <- py_int port_str ;; Ok (Some n)
              else Ok None) ;;
     let labels := split_chr "." host in
     tld <- (if nonempty labels then last_item labels else Ok []) ;;
     let reg := if (2 <=? length labels)%nat
                then join "." (last_two labels) else host in
     let sub := if (2 <? length labels)%nat
                then join "." (but_last_two labels) else [] in
     Ok {| scheme := lower (url_scheme p); host := host; path := url_path p;
           query := url_query p; fragment := url_fragment p; port := port;
           tld := tld; registered_domain := reg; subdomain := sub;
           labels := labels |})
    {| scheme := []; host := url; path := []; query := []; fragment := [];
       port := None; tld := []; registered_domain := url; subdomain := [];
       labels := [url] |}.

Definition login_kw : list str := set_of
  ["login"; "signin"; "sign-in"; "account"; "verify"; "auth"; "authenticate";
   "confirm"; "update"].
Definition trust_kw : list str := set_of
  ["secure"; "safe"; "trust"; "bank"; "protected"; "official"; "helpdesk"].
Definition pay_kw : list str := set_of
  ["pay"; "payment"; "wallet"; "upi"; "gpay"; "paytm"; "bhim"; "razorpay";
   "phonepay"].
Definition free_kw : list str := set_of
  ["free"; "bonus"; "prize"; "winner"; "giveaway"; "reward"; "claim"; "gift";
   "lucky"; "congratulations"].
Definition fraud_kw : list str := set_of
  ["kyc"; "refund"; "tax"; "block"; "suspend"; "urgent"; "helpdesk"; "support";
   "care"; "alert"].
(** [login_kw | trust_kw | pay_kw | free_kw | fraud_kw] *)
Definition all_kw : list str :=
  distinct_str (login_kw ++ trust_kw ++ pay_kw ++ free_kw ++ fraud_kw)%list.
Definition fraud_pfx : list str := set_of
  ["refund"; "tax"; "prize"; "block"; "kyc"; "urgent"; "helpdesk"; "support";
   "care"].

(** Whether one match of [upi_re] is suspicious. *)
Definition suspicious_vpa (m : str) : result bool :=
  handle <- last_item (split_chr "@" m) ;;
  let handle := lower handle in
  prefix <- getitem (split_chr "@" m) 0 ;;
  let prefix := lower prefix in
  Ok (negb (str_in handle LEGIT_UPI_HANDLES)
      || any_in (fun fp => contains fp prefix) fraud_pfx).

(** The loop over [upi_re.finditer(url)], with its [break]. *)
Fixpoint upi_scan (ms : list str) : result R :=
  match ms with
  | [] => Ok 0%R
  | m :: ms' =>
      b <- suspicious_vpa m ;;
      if b then Ok 1%R else upi_scan ms'
  end.

Definition extract_features (url : str) : result (list R) :=
  let p := parse_url_parts url in
  let host := host p in
  let path := path p in
  let query := query p in
  let tld := tld p in
  let domain := registered_domain p in
  let sub := subdomain p in
  let low := lower url in
  let f := repeat 0%R 56 in
  (* Group A: lexical structure *)
  f <- setitem f 0 (INR (length url)) ;;
  f <- setitem f 1 (INR (length host)) ;;
  f <- setitem f 2 (INR (length path)) ;;
  f <- setitem f 3 (INR (length query)) ;;
  f <- setitem f 4 (INR (count_chr "." url)) ;;
  f <- setitem f 5 (INR (count_chr "-" url)) ;;
  f <- setitem f 6 (INR (count_chr "_" url)) ;;
  let no_proto := if contains "//" url then after_first "//" url else url in
  f <- setitem f 7 (INR (count_chr "/" no_proto)) ;;
  f <- setitem f 8 (INR (count_chr "@" url)) ;;
  let digits := count_if isdigit url in
  f <- setitem f 9 (INR digits) ;;
  r <- truediv (INR digits) (INR (Nat.max (length url) 1)) ;;
  f <- setitem f 10 r ;;
  f <- setitem f 11 (flag (str_eqb (scheme p) "https")) ;;
  f <- setitem f 12 (flag (found (re_search ip_re host))) ;;
  f <- setitem f 13 (flag (contains "xn--" host)) ;;
  f <- setitem f 14 (IZR (Z.max (Z.of_nat (length (labels p)) - 2) 0)) ;;
  f <- setitem f 15
         (flag match port p with
               | Some n => negb (existsb (N.eqb n) [80; 443; 8080; 8443]%N)
               | None => false
               end) ;;
  (* Group B: information theory *)
  r <- shannon_entropy url ;;
  f <- setitem f 16 r ;;
  r <- shannon_entropy host ;;
  f <- setitem f 17 r ;;
  r <- shannon_entropy path ;;
  f <- setitem f 18 r ;;
  r <- char_ngram_entropy host 2 ;;
  f <- setitem f 19 r ;;
  r <- char_ngram_entropy host 3 ;;
  f <- setitem f 20 r ;;
  (* Group C: brand similarity *)
  min_dist <- min_brand_distance domain ;;
  f <- setitem f 21 (flag ((0 <? min_dist)%nat && (min_dist <=? 2)%nat)) ;;
  r <- truediv (INR (Nat.min min_dist 10)) 10%R ;;
  f <- setitem f 22 r ;;
  let brand_sub := existsb (fun b => contains b sub) BRANDS in
  brand_reg <- any_r (fun b => core <- getitem (split_chr "." domain) 0 ;;
                               Ok (contains b core)) BRANDS ;;
  f <- setitem f 23 (flag (brand_sub && negb brand_reg)) ;;
  (* Group D: keyword signals *)
  f <- setitem f 24 (flag (any_in (fun k => contains k low) login_kw)) ;;
  f <- setitem f 25 (flag (any_in (fun k => contains k host) trust_kw)) ;;
  f <- setitem f 26 (flag (any_in (fun k => contains k low) pay_kw)) ;;
  f <- setitem f 27 (flag (any_in (fun k => contains k low) free_kw)) ;;
  f <- setitem f 28 (flag (any_in (fun k => contains k low) fraud_kw)) ;;
  let hits := hits_in (fun k => contains k low) all_kw in
  r <- truediv (INR hits) 6%R ;;
  f <- setitem f 29 (Rmin r 1%R) ;;
  f <- setitem f 30 (flag (contains "-" host)) ;;
  (* Group E: obfuscation and encoding *)
  f <- setitem f 31 (flag (found (re_search dbl_re path))) ;;
  let pct_count := length (re_finditer pct_re url) in
  r <- truediv (INR pct_count) (INR (Nat.max (length url) 1)) ;;
  f <- setitem f 32 r ;;
  third <- truediv (INR (length url)) 3%R ;;
  r <- truediv (INR pct_count) (Rmax third 1%R) ;;
  f <- setitem f 33 (Rmin r 1%R) ;;
  f <- setitem f 34 (INR (if nonempty query then length (split_chr "&" query)
                          else 0%nat)) ;;
  f <- setitem f 35 (flag (nonempty (fragment p))) ;;
  f <- setitem f 36 (flag (startswith "data:" low)) ;;
  f <- setitem f 37 (flag (contains ".." path || contains "%2e%2e" low)) ;;
  (* Group F: domain quality *)
  f <- setitem f 38 (flag (str_in tld SUSPICIOUS_TLDS)) ;;
  f <- setitem f 39 (INR (length tld)) ;;
  f <- setitem f 40 (flag (nonempty sub)) ;;
  f <- setitem f 41 (flag (re_fullmatch numeric_re host)) ;;
  r <- truediv (INR (length (distinct_chr url))) (INR (Nat.max (length url) 1)) ;;
  f <- setitem f 42 r ;;
  let vowels := count_if (fun c => chr_in c "aeiou") host in
  let alpha := count_if isalpha host in
  r <- truediv (INR vowels) (INR (Nat.max alpha 1)) ;;
  f <- setitem f 43 r ;;
  f <- setitem f 44 (INR (max_consecutive_consonants host)) ;;
  f <- setitem f 45 (flag (str_in domain SHORT_URL_SERVICES)) ;;
  f <- setitem f 46 (flag (found (re_search base64_re query))) ;;
  f <- setitem f 47 (INR (count_chr "/" path)) ;;
  (* Group G: UPI / payment specific *)
  f <- setitem f 48 (flag (found (re_search upi_re url))) ;;
  suspicious_upi <- upi_scan (re_finditer upi_re url) ;;
  f <- setitem f 49 suspicious_upi ;;
  f <- setitem f 50 (flag (found (re_search collect_re low))) ;;
  (* Group H: file and extension risk *)
  let ext := match re_search ext_re path with
             | Some (_, Some g) => lower g
             | _ => []
             end in
  f <- setitem f 51 (flag (str_in ext DANGEROUS_EXTENSIONS)) ;;
  f <- setitem f 52 (flag (found (re_search admin_re low))) ;;
  f <- setitem f 53 (flag (found (re_search redirect_re low))) ;;
  let max_rep :=
    py_max_default
      (map (fun ch => count_if (fun c => chr_eqb c ch) host)
           (set_iter (distinct_chr host))) 0 in
  r <- truediv (INR max_rep) (INR (Nat.max (length host) 1)) ;;
  f <- setitem f 54 r ;;
  f <- setitem f 55 (flag (found (re_search hex_re low))) ;;
  Ok f.

Close Scope string_scope.

End Extractor.

(** ** The names of the features *)

Definition FEATURE_NAMES : list string :=
  ["url_length"; "domain_length"; "path_length"; "query_length"; "dot_count";
    "hyphen_count"; "underscore_count"; "slash_count"; "at_count";
    "digit_count"; "digit_ratio"; "is_https"; "ip_in_url"; "is_punycode";
    "subdomain_depth"; "port_anomaly"; "url_entropy"; "domain_entropy";
    "path_entropy"; "domain_bigram_entropy"; "domain_trigram_entropy";
    "brand_spoof_flag"; "brand_distance_norm"; "brand_in_subdomain_only";
    "has_login_kw"; "has_trust_kw_in_domain"; "has_payment_kw"; "has_free_kw";
    "has_fraud_kw"; "keyword_density"; "hyphen_in_domain"; "double_extension";
    "pct_encoding_ratio"; "heavy_encoding"; "query_param_count";
    "has_fragment"; "is_data_uri"; "path_traversal"; "suspicious_tld";
    "tld_length"; "has_subdomain"; "numeric_domain"; "url_compression_ratio";
    "vowel_ratio"; "max_consonant_run"; "is_short_url"; "base64_in_query";
    "path_depth"; "upi_vpa_present"; "suspicious_upi_vpa";
    "upi_collect_request"; "dangerous_extension"; "admin_path";
    "open_redirect"; "max_char_repeat_ratio"; "hex_token_in_url" ]%string.

(** ** The training pipeline of [train.py]: the data it assembles *)

Definition N_FEATURES : nat := 56.



Section Train.

Variable urlparse : str -> result ParseResult.
Variable set_iter : forall A : Type, list A -> list A.

(** The loop of [extract_all] on the lists [X] and [y] and the count
    [skipped]. The labels are whatever the caller hands over, so their type
    is left open and [int_] stands for the built-in [int] on it. Inside the
    [try] the row is appended to [X] before [int(label)] is evaluated: when
    [extract_features] raises or the [assert] fails nothing is appended,
    when [int] raises the row stays in [X] and [y] gets nothing, and in
    both cases [skipped] is incremented. The URLs are strings, on which
    [str] is the identity. *)
Definition extract_all_loop (label : Type) (int_ : label -> result Z)
    (urls : list str) (labels : list label)
  : list (list R) * list Z * nat :=
  fold_left
    (fun '(X, y, skipped) '(url, l) =>
       match (feats <- extract_features urlparse set_iter (strip url) ;;
              if length feats =? N_FEATURES then Ok feats
              else Raise AssertionError) with
       | Ok feats =>
           match int_ l with
           | Ok z => (X ++ [feats], y ++ [z], skipped)
           | Raise _ => (X ++ [feats], y, skipped + 1)
           end
       | Raise _ => (X, y, skipped + 1)
       end)
    (combine urls labels) ([], [], 0).

(** [extract_all], up to the lists [X] and [y] it hands to [np.array]: the
    conversion of [X] to an array of 32-bit floats and of [y] to an array of
    64-bit integers is not modelled. *)
Definition extract_all (label : Type) (int_ : label -> result Z)
    (urls : list str) (labels : list label)
  : list (list R) * list Z :=
  let '(X, y, _) := extract_all_loop int_ urls labels in (X, y).

(** The deduplication loop of [build_dataset]: a URL already seen is
    dropped with its label. *)
Definition deduplicate (all_urls : list str) (all_labels : list Z)
  : list str * list Z :=
  let '(_, urls_dedup, labels_dedup) :=
    fold_left
      (fun '(seen, urls_dedup, labels_dedup) '(u, l) =>
         if str_in u seen then (seen, urls_dedup, labels_dedup)
         else (u :: seen, urls_dedup ++ [u], labels_dedup ++ [l]))
      (combine all_urls all_labels) ([], [], []) in
  (urls_dedup, labels_dedup).




End Train.

Arguments extract_all_loop urlparse set_iter label int_ urls labels : clear implicits.
Arguments extract_all urlparse set_iter label int_ urls labels : clear implicits.

(** A label as a loader can hand it over: a Python int, or the float NaN
    that pandas puts where a value is missing. [int] returns the first and
    raises [ValueError] on the second. *)
Inductive csv_label : Type :=
| IntLabel (z : Z)
| NaNLabel.

Definition int_of_label (l : csv_label) : result Z :=
  match l with
  | IntLabel z => Ok z
  | NaNLabel => Raise ValueError
  end.
(** * Binary64: the entropy as the interpreter computes it

    The entropy functions once more, on IEEE 754 binary64 numbers with
    round-to-nearest-even (the library's [spec_float] at precision 53), to
    tell where the rounding of the interpreter's floats shows. [math.log2]
    is the C library's function and the built-in [sum] changed with release
    3.12: the functions are parametrised by both. *)
Module Binary64.

Definition float : Type := spec_float.
Definition prec : Z := 53.
Definition emax : Z := 1024.

(** [float(z)] for an int [z]: exact below 2^53. *)
Definition of_Z (z : Z) : float := binary_normalize prec emax z 0 false.
Definition of_nat (n : nat) : float := of_Z (Z.of_nat n).

Definition fmul : float -> float -> float := SFmul prec emax.
Definition fdiv : float -> float -> float := SFdiv prec emax.
Definition fneg : float -> float := SFopp.
Definition feqb : float -> float -> bool := SFeqb.




Section Entropy.

Variable log2 : float -> result float.
Variable sum : list float -> float.

(** [a / b] for two ints below 2^53: the quotient of their floats. *)
Definition truediv (a b : nat) : result float :=
  if b =? 0 then Raise ZeroDivisionError else Ok (fdiv (of_nat a) (of_nat b)).

(** [-sum((f / n) * math.log2(f / n) for f in values)], for at least one
    value. *)
Definition entropy_sum (values : list nat) (n : nat) : result float :=
  terms <- map_r (fun f =>
             p <- truediv f n ;;
             q <- truediv f n ;;
             l <- log2 q ;;
             Ok (fmul p l)) values ;;
  Ok (fneg (sum terms)).

Definition shannon_entropy (s : str) : result float :=
  match s with
  | [] => Ok (S754_zero false)
  | _ =>
      let freq := tally chr_eqb s in
      let n := length s in
      entropy_sum (dict_values freq) n
  end.

Definition char_ngram_entropy (s : str) (n : nat) : result float :=
  if length s <? n then Ok (S754_zero false)
  else
    let ngrams := map (fun i => slice s i n) (seq 0 (length s - n + 1)) in
    let freq := tally str_eqb ngrams in
    let total := length ngrams in
    entropy_sum (dict_values freq) total.

End Entropy.

End Binary64.

(** A reference model of the C library's [log2] on binary64, behind
    [math.log2]: the logarithm rounded to nearest. For [x = m * 2^e] with
    [2^l <= m < 2^(l+1)] it is [e + l] plus the logarithm of
    [y = m / 2^l], whose binary digits come from squaring: the next digit
    is 1 when [y * y >= 2], and then [y * y] is halved. [y] is kept between
    two fixed-point bounds of 320 fractional bits, 160 digits are taken, and
    the value they leave between two neighbours is rounded. The C library
    promises an error below one unit in the last place, not the nearest
    float: it returns a neighbour of the reference value at some arguments
    (at [28 / 31], for one), and the reference is used only where the two
    agree. *)
Module Libm.

Definition scale : Z := 320.
Definition digits : nat := 160.

(** One digit, on the bounds [lo <= y * 2^scale <= hi] and the digits [b]
    so far; nothing when the bounds do not decide it. *)
Definition log2_digit (st : option (Z * Z * Z)) : option (Z * Z * Z) :=
  match st with
  | None => None
  | Some (lo, hi, b) =>
      let lo2 := Z.shiftr (lo * lo) scale in
      let hi2 := Z.shiftr (hi * hi + (Z.shiftl 1 scale - 1)) scale in
      let two := Z.shiftl 1 (scale + 1) in
      if (two <=? lo2)%Z
      then Some (Z.shiftr lo2 1, Z.shiftr (hi2 + 1) 1, (2 * b + 1)%Z)
      else if (hi2 <? two)%Z then Some (lo2, hi2, (2 * b)%Z)
      else None
  end.

(** The logarithm of [m * 2^e]; NaN where 160 digits do not decide the
    rounding. *)
Definition log2_finite (m : positive) (e : Z) : Binary64.float :=
  let l := Z.log2 (Zpos m) in
  if (Zpos m =? Z.shiftl 1 l)%Z then Binary64.of_Z (e + l)
  else
    let y := Z.shiftl (Zpos m) (scale - l) in
    match Nat.iter digits log2_digit (Some (y, y, 0%Z)) with
    | Some (_, _, b) =>
        let v := (Z.shiftl (e + l) (Z.of_nat digits) + b)%Z in
        let below := binary_normalize Binary64.prec Binary64.emax
                       v (- Z.of_nat digits) false in
        let above := binary_normalize Binary64.prec Binary64.emax
                       (v + 1) (- Z.of_nat digits) false in
        if Binary64.feqb below above then below else S754_nan
    | None => S754_nan
    end.

(** [math.log2(x)]: a domain error for zero, the negative numbers and minus
    infinity. *)
Definition log2 (x : Binary64.float) : result Binary64.float :=
  match x with
  | S754_nan => Ok S754_nan
  | S754_infinity false => Ok x
  | S754_finite false m e => Ok (log2_finite m e)
  | _ => Raise ValueError
  end.

End Libm.

(** * Definitions for the statements *)

Unset Implicit Arguments.

(** [FEATURE_NAMES.index(name)] *)
Fixpoint index_of (name : string) (names : list string) : nat :=
  match names with
  | [] => 0
  | x :: names' => if String.eqb name x then 0 else S (index_of name names')
  end.

(** The entry of a vector that [FEATURE_NAMES] gives the name to. *)
Definition feature (name : string) (f : list R) : R :=
  nth (index_of name FEATURE_NAMES) f 0%R.

(** The three shapes of a feature value, and the entropies. *)
Inductive shape : Type := Flag | Count | Ratio | Entropy.

Definition declared_shape (name : string) : shape :=
  if existsb (String.eqb name)
       [ "digit_ratio"; "brand_distance_norm"; "keyword_density";
         "pct_encoding_ratio"; "heavy_encoding"; "url_compression_ratio";
         "vowel_ratio"; "max_char_repeat_ratio" ]%string
  then Ratio
  else if existsb (String.eqb name)
       [ "url_entropy"; "domain_entropy"; "path_entropy";
         "domain_bigram_entropy"; "domain_trigram_entropy" ]%string
  then Entropy
  else if existsb (String.eqb name)
       [ "url_length"; "domain_length"; "path_length"; "query_length";
         "dot_count"; "hyphen_count"; "underscore_count"; "slash_count";
         "at_count"; "digit_count"; "subdomain_depth"; "query_param_count";
         "tld_length"; "max_consonant_run"; "path_depth" ]%string
  then Count
  else Flag.

Definition has_shape (s : shape) (v : R) : Prop :=
  match s with
  | Flag => v = 0%R \/ v = 1%R
  | Count => exists n : nat, v = INR n
  | Ratio => (0 <= v <= 1)%R
  | Entropy => (0 <= v)%R
  end.

(** ** Edit distance *)

Definition cost (x y : ascii) : nat := if chr_eqb x y then 0 else 1.

(** The edit distance by its recurrence. *)
Fixpoint lev (a b : str) : nat :=
  match a with
  | [] => length b
  | x :: a' =>
      (fix inner (b : str) : nat :=
         match b with
         | [] => length a
         | y :: b' =>
             Nat.min (lev a' b + 1) (Nat.min (inner b' + 1) (lev a' b' + cost x y))
         end) b
  end.

(** Edit scripts: [edit a b n] when [n] unit-cost insertions, deletions and
    substitutions (a kept character costs nothing) turn [a] into [b]. *)
Inductive edit : str -> str -> nat -> Prop :=
| edit_nil : edit [] [] 0
| edit_del (x : ascii) (a b : str) (n : nat) :
    edit a b n -> edit (x :: a) b (S n)
| edit_ins (y : ascii) (a b : str) (n : nat) :
    edit a b n -> edit a (y :: b) (S n)
| edit_sub (x y : ascii) (a b : str) (n : nat) :
    edit a b n -> edit (x :: a) (y :: b) (n + cost x y).

(** Entry [j] of row [i] of the Wagner-Fischer table: the distance between
    the first [i] characters of [a] and the first [j] of [b] (read
    backwards, as the rows grow). *)
Definition cell (a b : str) (i j : nat) : nat :=
  lev (rev (firstn i a)) (rev (firstn j b)).

Definition row (a b : str) (i : nat) : list nat :=
  map (cell a b i) (seq 0 (length b + 1)).

(** ** Frequency tables and entropy *)

Definition dict_keys (K : Type) (d : list (K * nat)) : list K := map fst d.

Definition tally_step (K : Type) (eqb : K -> K -> bool)
    (d : list (K * nat)) (x : K) : list (K * nat) :=
  dict_set eqb d x (dict_get eqb d x 0 + 1).

(** The table after the items [seen]: one key per distinct item, with the
    number of its occurrences. *)
Definition tallies (K : Type) (eqb : K -> K -> bool)
    (d : list (K * nat)) (seen : list K) : Prop :=
  NoDup (dict_keys K d)
  /\ (forall k, In k (dict_keys K d) <-> In k seen)
  /\ (forall k, dict_get eqb d k 0 = count_if (eqb k) seen).

Definition log2_R (x : R) : R := (ln x / ln 2)%R.

(** [p * log2 p] for the share [p = f / n]. *)
Definition plogp (n f : nat) : R :=
  ((INR f / INR n) * log2_R (INR f / INR n))%R.

(** [[s[i:i+n] for i in range(len(s) - n + 1)]] *)
Definition ngrams (s : str) (n : nat) : list str :=
  map (fun i => slice s i n) (seq 0 (length s - n + 1)).

(** ** The values of the features *)

(** [s.split(c)[0]] and [s.split(c)[-1]] *)
Definition head_part (c : ascii) (s : str) : str := hd [] (split_chr c s).
Definition last_part (c : ascii) (s : str) : str := last (split_chr c s) [].

(** What [min_brand_distance] returns. *)
Definition brand_distance (domain : str) : nat :=
  let core := lower (head_part "." domain) in
  match map (lev core) BRANDS with
  | [] => 0
  | d :: ds => fold_left Nat.min ds d
  end.

(** Whether a match of [upi_re] is suspicious. *)
Definition vpa_suspicious (set_iter : forall A : Type, list A -> list A)
    (m : str) : bool :=
  negb (str_in (lower (last_part "@" m)) LEGIT_UPI_HANDLES)
  || any_in set_iter (fun fp => contains fp (lower (head_part "@" m))) fraud_pfx.

(** The largest number of occurrences of one character. *)
Definition max_char_repeat (set_iter : forall A : Type, list A -> list A)
    (host : str) : nat :=
  py_max_default
    (map (fun ch => count_if (fun c => chr_eqb c ch) host)
         (set_iter _ (distinct_chr host))) 0.

Open Scope string_scope.

(** The vector [extract_features] returns, entry by entry. *)
Definition feature_values (urlparse : str -> result ParseResult)
    (set_iter : forall A : Type, list A -> list A) (url : str) : list R :=
  let p := parse_url_parts urlparse url in
  let low := lower url in
  let len1 := INR (Nat.max (length url) 1) in
  let dist := brand_distance (registered_domain p) in
  let pct_count := INR (length (re_finditer pct_re url)) in
  [ (* 0 *) INR (length url);
    INR (length (host p));
    INR (length (path p));
    INR (length (query p));
    INR (count_chr "." url);
    INR (count_chr "-" url);
    INR (count_chr "_" url);
    INR (count_chr "/" (if contains "//" url then after_first "//" url else url));
    INR (count_chr "@" url);
    INR (count_if isdigit url);
    (* 10 *) (INR (count_if isdigit url) / len1)%R;
    flag (str_eqb (scheme p) "https");
    flag (found (re_search ip_re (host p)));
    flag (contains "xn--" (host p));
    IZR (Z.max (Z.of_nat (length (labels p)) - 2) 0);
    flag match port p with
         | Some n => negb (existsb (N.eqb n) [80; 443; 8080; 8443]%N)
         | None => false
         end;
    (* 16 *)
    match url with
    | [] => 0%R
    | _ => (- py_sum (map (plogp (length url)) (dict_values (tally chr_eqb url))))%R
    end;
    match host p with
    | [] => 0%R
    | _ => (- py_sum (map (plogp (length (host p)))
                         (dict_values (tally chr_eqb (host p)))))%R
    end;
    match path p with
    | [] => 0%R
    | _ => (- py_sum (map (plogp (length (path p)))
                         (dict_values (tally chr_eqb (path p)))))%R
    end;
    (if (length (host p) <? 2)%nat then 0
     else - py_sum (map (plogp (length (ngrams (host p) 2)))
                        (dict_values (tally str_eqb (ngrams (host p) 2)))))%R;
    (if (length (host p) <? 3)%nat then 0
     else - py_sum (map (plogp (length (ngrams (host p) 3)))
                        (dict_values (tally str_eqb (ngrams (host p) 3)))))%R;
    (* 21 *) flag ((0 <? dist)%nat && (dist <=? 2)%nat);
    (INR (Nat.min dist 10) / 10)%R;
    flag (existsb (fun b => contains b (subdomain p)) BRANDS
          && negb (existsb (fun b => contains b (head_part "." (registered_domain p)))
                     BRANDS));
    (* 24 *) flag (any_in set_iter (fun k => contains k low) login_kw);
    flag (any_in set_iter (fun k => contains k (host p)) trust_kw);
    flag (any_in set_iter (fun k => contains k low) pay_kw);
    flag (any_in set_iter (fun k => contains k low) free_kw);
    flag (any_in set_iter (fun k => contains k low) fraud_kw);
    Rmin (INR (hits_in set_iter (fun k => contains k low) all_kw) / 6) 1;
    flag (contains "-" (host p));
    (* 31 *) flag (found (re_search dbl_re (path p)));
    (pct_count / len1)%R;
    Rmin (pct_count / Rmax (INR (length url) / 3) 1) 1;
    INR (if nonempty (query p) then length (split_chr "&" (query p)) else 0%nat);
    flag (nonempty (fragment p));
    flag (startswith "data:" low);
    flag (contains ".." (path p) || contains "%2e%2e" low);
    (* 38 *) flag (str_in (tld p) SUSPICIOUS_TLDS);
    INR (length (tld p));
    flag (nonempty (subdomain p));
    flag (re_fullmatch numeric_re (host p));
    (INR (length (distinct_chr url)) / len1)%R;
    (INR (count_if (fun c => chr_in c "aeiou") (host p))
     / INR (Nat.max (count_if isalpha (host p)) 1))%R;
    INR (max_consecutive_consonants (host p));
    flag (str_in (registered_domain p) SHORT_URL_SERVICES);
    flag (found (re_search base64_re (query p)));
    INR (count_chr "/" (path p));
    (* 48 *) flag (found (re_search upi_re url));
    flag (existsb (vpa_suspicious set_iter) (re_finditer upi_re url));
    flag (found (re_search collect_re low));
    (* 51 *)
    flag (str_in match re_search ext_re (path p) with
                 | Some (_, Some g) => lower g
                 | _ => []
                 end DANGEROUS_EXTENSIONS);
    flag (found (re_search admin_re low));
    flag (found (re_search redirect_re low));
    (INR (max_char_repeat set_iter (host p)) / INR (Nat.max (length (host p)) 1))%R;
    flag (found (re_search hex_re low)) ].

Close Scope string_scope.

(** ** The two dictionaries of [parse_url_parts] *)

(** The dictionary of the [except] branch. *)
Definition recovery (url : str) : ParsedURL :=
  {| scheme := []; host := url; path := []; query := []; fragment := [];
     port := None; tld := []; registered_domain := url; subdomain := [];
     labels := [url] |}.

(** The host and the port text that the [try] branch reads from the
    authority. *)
Definition host_of (p : ParseResult) : str :=
  fst (fst (partition_chr ":" (last_part "@" (lower (url_netloc p))))).

Definition port_str_of (p : ParseResult) : str :=
  snd (partition_chr ":" (last_part "@" (lower (url_netloc p)))).

(** The dictionary of the [try] branch, for the components [p] that
    [urlparse] returned and the port [n]. *)
Definition parsed (p : ParseResult) (n : option N) : ParsedURL :=
  let h := host_of p in
  let ls := split_chr "." h in
  {| scheme := lower (url_scheme p); host := h; path := url_path p;
     query := url_query p; fragment := url_fragment p; port := n;
     tld := last_part "." h;
     registered_domain :=
       if 2 <=? length ls then join "." (last_two ls) else h;
     subdomain := if 2 <? length ls then join "." (but_last_two ls) else [];
     labels := ls |}.

(** A match of [upi_re]: a local part, the [@] and a handle. *)
Definition vpa_shape (m local handle : str) : Prop :=
  m = local ++ "@"%char :: handle
  /\ local <> [] /\ forallb upi_local local = true
  /\ handle <> [] /\ forallb is_alpha_ascii handle = true.

(** Two iteration orders of a set: as filled, and backwards. *)
Definition insertion_order : forall A : Type, list A -> list A := fun _ l => l.
Definition reverse_order : forall A : Type, list A -> list A := fun _ l => rev l.


(** ** Consonant runs and matches *)

(** The test of [max_consecutive_consonants] on a (lowercased) character. *)
Definition is_consonant (c : ascii) : bool :=
  isalpha c && negb (chr_in c (list_ascii_of_string "aeiou")).

(** One turn of the loop of [max_consecutive_consonants]. *)
Definition consonant_step (st : nat * nat) (c : ascii) : nat * nat :=
  let '(max_run, cur) := st in
  if is_consonant c then (Nat.max max_run (cur + 1), cur + 1) else (max_run, 0).

(** The characters that the matches of a scan cover. *)
Definition total_length (ms : list str) : nat :=
  fold_right (fun m acc => length m + acc) 0 ms.

(** [s] holds a payment address: a non-empty run of local-part characters,
    the [@], a non-empty run of letters. *)
Definition holds_vpa (s : str) : Prop :=
  exists pre local handle post,
    s = pre ++ local ++ "@"%char :: handle ++ post
    /\ local <> [] /\ forallb upi_local local = true
    /\ handle <> [] /\ forallb is_alpha_ascii handle = true.

(** ** Numeric hosts and the loops of the training script *)

(** The characters of the class [[\d.]] of the numeric-host pattern. *)
Definition numeric_chr (c : ascii) : bool := is_decimal c || chr_eqb c ".".

(** The labels that [int] accepts, converted, in order. *)
Definition accepted {label : Type} (int_ : label -> result Z) (ls : list label)
  : list Z :=
  flat_map (fun l => match int_ l with Ok z => [z] | Raise _ => [] end) ls.

(** The number of labels that [int] rejects. *)
Definition rejected {label : Type} (int_ : label -> result Z) (ls : list label)
  : nat :=
  length (filter (fun l => match int_ l with Ok _ => false | Raise _ => true end)
                 ls).

(** One turn of the deduplication loop of [build_dataset], on the state
    [(seen, urls_dedup, labels_dedup)]. *)
Definition dedup_step (st : list str * list str * list Z) (p : str * Z)
  : list str * list str * list Z :=
  let '(seen, us, ls) := st in
  let '(u, l) := p in
  if str_in u seen then (seen, us, ls) else (u :: seen, us ++ [u], ls ++ [l]).

(** What the loop keeps of the pairs [done] it has gone through. *)
Definition dedup_inv (done : list (str * Z)) (st : list str * list str * list Z)
  : Prop :=
  let '(seen, us, ls) := st in
  NoDup us
  /\ length us = length ls
  /\ (forall u, In u seen <-> In u us)
  /\ (forall u, In u us <-> In u (map fst done))
  /\ (forall u l, In (u, l) (combine us ls) ->
        exists pre post, done = pre ++ (u, l) :: post /\ ~ In u (map fst pre)).


(** * Lemmas *)

(** ** The error monad *)

Lemma bind_ok {A B : Type} (m : result A) (k : A -> result B) (a : A) :
  m = Ok a -> bind m k = k a.
Proof. intros ->. reflexivity. Qed.

Lemma getitem_ok {A : Type} (l : list A) (i : nat) (x : A) :
  nth_error l i = Some x -> getitem l i = Ok x.
Proof. unfold getitem. intros ->. reflexivity. Qed.

Lemma getitem_lt {A : Type} (l : list A) (i : nat) :
  i < length l -> exists x, nth_error l i = Some x /\ getitem l i = Ok x.
Proof.
  intros H. destruct (nth_error l i) as [x|] eqn:E.
  - exists x. split; [reflexivity | now apply getitem_ok].
  - apply nth_error_None in E. lia.
Qed.

Lemma setitem_ok {A : Type} (l : list A) (i : nat) (v : A) :
  i < length l -> setitem l i v = Ok (firstn i l ++ v :: skipn (S i) l).
Proof.
  intros H. unfold setitem.
  destruct (Nat.ltb_spec i (length l)); [reflexivity | lia].
Qed.

Lemma for_each_seq_inv {S : Type} (P : nat -> S -> Prop)
    (body : nat -> S -> result S) (len : nat) :
  forall (start : nat) (s : S),
    P start s ->
    (forall k t, start <= k < start + len -> P k t ->
                 exists t', body k t = Ok t' /\ P (Datatypes.S k) t') ->
    exists s', for_each (seq start len) s body = Ok s' /\ P (start + len) s'.
Proof.
  induction len as [|len IH]; intros start s Hs Hstep; simpl.
  - exists s. rewrite Nat.add_0_r. auto.
  - destruct (Hstep start s) as [t [Ht Pt]]; [lia | assumption |].
    rewrite Ht. simpl.
    destruct (IH (Datatypes.S start) t Pt) as [s' [Hs' Ps']].
    + intros k u Hk Pu. apply Hstep; [lia | assumption].
    + exists s'. split; [assumption |].
      now replace (start + Datatypes.S len) with (Datatypes.S start + len) by lia.
Qed.

(** ** Edit distance *)



Lemma lev_nil_r (a : str) : lev a [] = length a.
Proof. destruct a; reflexivity. Qed.

Lemma lev_cons (x y : ascii) (a b : str) :
  lev (x :: a) (y :: b) =
  Nat.min (lev a (y :: b) + 1) (Nat.min (lev (x :: a) b + 1) (lev a b + cost x y)).
Proof. reflexivity. Qed.


Lemma cost_refl (x : ascii) : cost x x = 0.
Proof. unfold cost, chr_eqb. now rewrite Ascii.eqb_refl. Qed.

Lemma cost_sym (x y : ascii) : cost x y = cost y x.
Proof. unfold cost, chr_eqb. now rewrite Ascii.eqb_sym. Qed.

Lemma cost_zero (x y : ascii) : cost x y = 0 -> x = y.
Proof.
  unfold cost, chr_eqb. destruct (Ascii.eqb_spec x y); [auto | discriminate].
Qed.

Lemma cost_triangle (x y z : ascii) : cost x z <= cost x y + cost y z.
Proof.
  unfold cost, chr_eqb.
  destruct (Ascii.eqb_spec x z), (Ascii.eqb_spec x y), (Ascii.eqb_spec y z);
    simpl; try lia; congruence.
Qed.

Lemma edit_ins_all (b : str) : edit [] b (length b).
Proof. induction b; simpl; constructor; assumption. Qed.

Lemma edit_del_all (a : str) : edit a [] (length a).
Proof. induction a; simpl; constructor; assumption. Qed.

(** The recurrence is reached by a script... *)
Lemma lev_edit (a b : str) : edit a b (lev a b).
Proof.
  revert b. induction a as [|x a IHa]; intros b.
  - apply edit_ins_all.
  - induction b as [|y b IHb].
    + rewrite lev_nil_r. apply edit_del_all.
    + rewrite lev_cons.
      destruct (Nat.min_spec (lev a (y :: b) + 1)
                  (Nat.min (lev (x :: a) b + 1) (lev a b + cost x y)))
        as [[_ ->]|[_ ->]].
      * rewrite Nat.add_1_r. apply edit_del, IHa.
      * destruct (Nat.min_spec (lev (x :: a) b + 1) (lev a b + cost x y))
          as [[_ ->]|[_ ->]].
        -- rewrite Nat.add_1_r. apply edit_ins, IHb.
        -- apply edit_sub, IHa.
Qed.

(** ... and no script is shorter. *)
Lemma lev_le_edit (a b : str) (n : nat) : edit a b n -> lev a b <= n.
Proof.
  induction 1 as [|x a b n H IH|y a b n H IH|x y a b n H IH].
  - simpl. lia.
  - destruct b as [|y b].
    + rewrite lev_nil_r in *. simpl. lia.
    + rewrite lev_cons. lia.
  - destruct a as [|x a].
    + simpl in *. lia.
    + rewrite lev_cons. lia.
  - rewrite lev_cons. lia.
Qed.

Lemma edit_sym (a b : str) (n : nat) : edit a b n -> edit b a n.
Proof.
  induction 1; try (constructor; assumption).
  rewrite cost_sym. now constructor.
Qed.

Lemma edit_refl (a : str) : edit a a 0.
Proof.
  induction a as [|x a IH]; [constructor |].
  replace 0 with (0 + cost x x) by (rewrite cost_refl; reflexivity).
  now constructor.
Qed.

Lemma edit_zero (a b : str) (n : nat) : edit a b n -> n = 0 -> a = b.
Proof.
  induction 1 as [| | |x y a b n H IH]; intros Hn; try discriminate; auto.
  assert (n = 0) by lia. assert (cost x y = 0) by lia.
  f_equal; [now apply cost_zero | auto].
Qed.

Lemma edit_trans (a b : str) (n : nat) :
  edit a b n ->
  forall (c : str) (m : nat), edit b c m -> exists k, edit a c k /\ k <= n + m.
Proof.
  induction 1 as [|x a b n H IH|y a b n H IH|x y a b n H IH]; intros c m Hc.
  - exists m. auto.
  - destruct (IH c m Hc) as [k [Hk Hle]].
    exists (S k). split; [now constructor | lia].
  - remember (y :: b) as b0 eqn:Eb.
    induction Hc as [|y' b1 c m Hc IHc|z b1 c m Hc IHc|y' z b1 c m Hc IHc].
    + discriminate.
    + injection Eb as -> ->. destruct (IH c m Hc) as [k [Hk Hle]].
      exists k. split; [assumption | lia].
    + destruct (IHc Eb) as [k [Hk Hle]].
      exists (S k). split; [now constructor | lia].
    + injection Eb as -> ->. destruct (IH c m Hc) as [k [Hk Hle]].
      exists (S k). split; [now constructor | lia].
  - remember (y :: b) as b0 eqn:Eb.
    induction Hc as [|y' b1 c m Hc IHc|z b1 c m Hc IHc|y' z b1 c m Hc IHc].
    + discriminate.
    + injection Eb as -> ->. destruct (IH c m Hc) as [k [Hk Hle]].
      exists (S k). split; [now constructor | lia].
    + destruct (IHc Eb) as [k [Hk Hle]].
      exists (S k). split; [now constructor | lia].
    + injection Eb as -> ->. destruct (IH c m Hc) as [k [Hk Hle]].
      exists (k + cost x z). split; [now constructor |].
      pose proof (cost_triangle x y z). lia.
Qed.

Lemma lev_sym (a b : str) : lev a b = lev b a.
Proof.
  apply Nat.le_antisymm; apply lev_le_edit, edit_sym, lev_edit.
Qed.

Lemma lev_zero_iff (a b : str) : lev a b = 0 <-> a = b.
Proof.
  split.
  - intros H. apply (edit_zero _ _ _ (lev_edit a b) H).
  - intros ->. pose proof (lev_le_edit _ _ _ (edit_refl b)). lia.
Qed.

Lemma lev_triangle (a b c : str) : lev a c <= lev a b + lev b c.
Proof.
  destruct (edit_trans _ _ _ (lev_edit a b) _ _ (lev_edit b c)) as [k [Hk Hle]].
  apply lev_le_edit in Hk. lia.
Qed.

(** Scripts read backwards. *)
Lemma edit_snoc_del (a b : str) (n : nat) (x : ascii) :
  edit a b n -> edit (a ++ [x]) b (S n).
Proof.
  induction 1; simpl.
  - apply edit_del, edit_nil.
  - now apply edit_del.
  - now apply edit_ins.
  - change (S (n + cost x0 y)) with (S n + cost x0 y). now apply edit_sub.
Qed.

Lemma edit_snoc_ins (a b : str) (n : nat) (y : ascii) :
  edit a b n -> edit a (b ++ [y]) (S n).
Proof.
  induction 1; simpl.
  - apply edit_ins, edit_nil.
  - now apply edit_del.
  - now apply edit_ins.
  - change (S (n + cost x y0)) with (S n + cost x y0). now apply edit_sub.
Qed.

Lemma edit_snoc_sub (a b : str) (n : nat) (x y : ascii) :
  edit a b n -> edit (a ++ [x]) (b ++ [y]) (n + cost x y).
Proof.
  induction 1; simpl.
  - apply (edit_sub x y _ _ _ edit_nil).
  - now apply edit_del.
  - now apply edit_ins.
  - replace (n + cost x0 y0 + cost x y) with (n + cost x y + cost x0 y0) by lia.
    now apply edit_sub.
Qed.

Lemma edit_rev (a b : str) (n : nat) : edit a b n -> edit (rev a) (rev b) n.
Proof.
  induction 1; simpl.
  - constructor.
  - now apply edit_snoc_del.
  - now apply edit_snoc_ins.
  - now apply edit_snoc_sub.
Qed.

Lemma lev_rev (a b : str) : lev (rev a) (rev b) = lev a b.
Proof.
  apply Nat.le_antisymm.
  - apply lev_le_edit, edit_rev, lev_edit.
  - rewrite <- (rev_involutive a), <- (rev_involutive b) at 1.
    apply lev_le_edit, edit_rev, lev_edit.
Qed.

(** ** The Wagner-Fischer rows *)

Lemma firstn_snoc_rev (a : str) (i : nat) (x : ascii) :
  nth_error a i = Some x -> rev (firstn (S i) a) = x :: rev (firstn i a).
Proof.
  revert i. induction a as [|y a IH]; intros [|i] H; simpl in *; try discriminate.
  - now injection H as ->.
  - rewrite (IH i H). reflexivity.
Qed.

Lemma nth_error_map_seq {A : Type} (f : nat -> A) (n k : nat) :
  k < n -> nth_error (map f (seq 0 n)) k = Some (f k).
Proof.
  intros H. rewrite nth_error_map, nth_error_seq.
  destruct (Nat.ltb_spec k n); [reflexivity | lia].
Qed.


Lemma cell_0_l (a b : str) (j : nat) : j <= length b -> cell a b 0 j = j.
Proof.
  intros H. unfold cell. simpl. rewrite length_rev, length_firstn. lia.
Qed.

Lemma cell_0_r (a b : str) (i : nat) : i <= length a -> cell a b i 0 = i.
Proof.
  intros H. unfold cell. simpl. rewrite lev_nil_r, length_rev, length_firstn. lia.
Qed.

Lemma cell_step (a b : str) (i j : nat) (x y : ascii) :
  nth_error a i = Some x -> nth_error b j = Some y ->
  cell a b (S i) (S j) =
  Nat.min (cell a b i (S j) + 1)
          (Nat.min (cell a b (S i) j + 1) (cell a b i j + cost x y)).
Proof.
  intros Ha Hb. unfold cell.
  rewrite (firstn_snoc_rev _ _ _ Ha), (firstn_snoc_rev _ _ _ Hb).
  apply lev_cons.
Qed.

Lemma row_0 (a b : str) : row a b 0 = seq 0 (length b + 1).
Proof.
  unfold row. rewrite <- (map_id (seq 0 (length b + 1))) at 2.
  apply map_ext_in. intros j Hj. apply in_seq in Hj. apply cell_0_l. lia.
Qed.

(** One pass of the inner loop turns row [i] into row [i + 1]. *)
Lemma inner_loop (a b : str) (i' : nat) :
  1 <= i' <= length a ->
  for_each (seq 1 (length b)) (i' :: repeat 0 (length b))
    (fun j curr =>
       ai <- getitem a (i' - 1) ;;
       bj <- getitem b (j - 1) ;;
       let cost := if chr_eqb ai bj then 0 else 1 in
       up <- getitem (row a b (i' - 1)) j ;;
       left <- getitem curr (j - 1) ;;
       diag <- getitem (row a b (i' - 1)) (j - 1) ;;
       setitem curr j (Nat.min (up + 1) (Nat.min (left + 1) (diag + cost))))
  = Ok (row a b i').
Proof.
  intros Hi. destruct i' as [|i]; [lia |].
  replace (S i - 1) with i by lia.
  set (n := length b).
  pose (P := fun (k : nat) (curr : list nat) =>
               curr = map (cell a b (S i)) (seq 0 k) ++ repeat 0 (n + 1 - k)).
  match goal with |- for_each _ _ ?body = _ =>
    destruct (for_each_seq_inv P body n 1 (S i :: repeat 0 n)) as [s [Hs Ps]]
  end.
  - unfold P. simpl. rewrite cell_0_r by lia.
    now replace (n + 1 - 1) with n by lia.
  - intros k curr Hk Hc. unfold P in Hc.
    destruct k as [|k]; [lia |].
    destruct (getitem_lt a i) as [x [Hx ->]]; [lia |].
    destruct (getitem_lt b (S k - 1)) as [y [Hy ->]]; [fold n; lia |].
    cbn [bind].
    unfold row. fold n.
    assert (Hup : nth_error (map (cell a b i) (seq 0 (n + 1))) (S k)
                  = Some (cell a b i (S k))) by (apply nth_error_map_seq; lia).
    rewrite (getitem_ok _ _ _ Hup). cbn [bind].
    assert (Hleft : nth_error curr (S k - 1) = Some (cell a b (S i) k)).
    { rewrite Hc, nth_error_app1 by (rewrite length_map, length_seq; lia).
      replace (S k - 1) with k by lia. apply nth_error_map_seq. lia. }
    rewrite (getitem_ok _ _ _ Hleft). cbn [bind].
    assert (Hdiag : nth_error (map (cell a b i) (seq 0 (n + 1))) (S k - 1)
                    = Some (cell a b i (S k - 1))) by (apply nth_error_map_seq; lia).
    rewrite (getitem_ok _ _ _ Hdiag). cbn [bind].
    assert (Hlen : length curr = n + 1).
    { rewrite Hc, length_app, length_map, length_seq, repeat_length. lia. }
    rewrite setitem_ok by lia.
    eexists. split; [reflexivity |]. unfold P.
    replace (S k - 1) with k in * by lia.
    fold (cost x y). rewrite <- (cell_step _ _ _ _ _ _ Hx Hy).
    assert (Hf : firstn (S k) curr = map (cell a b (S i)) (seq 0 (S k))).
    { rewrite Hc, firstn_app, length_map, length_seq.
      replace (S k - S k) with 0 by lia. rewrite firstn_0, app_nil_r.
      apply firstn_all2. rewrite length_map, length_seq. lia. }
    assert (Hs : skipn (S (S k)) curr = repeat 0 (n + 1 - S (S k))).
    { rewrite Hc, skipn_app, length_map, length_seq.
      rewrite skipn_all2 by (rewrite length_map, length_seq; lia).
      replace (S (S k) - S k) with 1 by lia.
      replace (n + 1 - S k) with (S (n + 1 - S (S k))) by lia. reflexivity. }
    rewrite Hf, Hs, (seq_S (S k)), map_app, <- app_assoc. reflexivity.
  - rewrite Hs. f_equal. unfold P in Ps. unfold row. fold n.
    replace (n + 1 - (1 + n)) with 0 in Ps by lia. simpl in Ps.
    rewrite app_nil_r in Ps. now replace (n + 1) with (S n) by lia.
Qed.

(** The loops of [levenshtein], after the swap. *)
Lemma outer_loop (a b : str) :
  (prev <- for_each (seq 1 (length a)) (seq 0 (length b + 1)) (fun i prev =>
     for_each (seq 1 (length b)) (i :: repeat 0 (length b)) (fun j curr =>
       ai <- getitem a (i - 1) ;;
       bj <- getitem b (j - 1) ;;
       let cost := if chr_eqb ai bj then 0 else 1 in
       up <- getitem prev j ;;
       left <- getitem curr (j - 1) ;;
       diag <- getitem prev (j - 1) ;;
       setitem curr j (Nat.min (up + 1) (Nat.min (left + 1) (diag + cost))))) ;;
   getitem prev (length b))
  = Ok (lev a b).
Proof.
  pose (P := fun (k : nat) (prev : list nat) => prev = row a b (k - 1)).
  match goal with |- bind (for_each _ _ ?body) _ = _ =>
    destruct (for_each_seq_inv P body (length a) 1 (seq 0 (length b + 1)))
      as [s [Hs Ps]]
  end.
  - unfold P. simpl. symmetry. apply row_0.
  - intros k prev Hk Hp. unfold P in Hp. subst prev.
    exists (row a b k). split; [| unfold P; f_equal; lia].
    apply inner_loop. lia.
  - rewrite Hs. cbn [bind]. unfold P in Ps. subst s.
    replace (1 + length a - 1) with (length a) by lia.
    unfold row.
    assert (Hlast : nth_error (map (cell a b (length a)) (seq 0 (length b + 1)))
                      (length b) = Some (cell a b (length a) (length b)))
      by (apply nth_error_map_seq; lia).
    rewrite (getitem_ok _ _ _ Hlast).
    f_equal. unfold cell. rewrite !firstn_all. apply lev_rev.
Qed.

Lemma levenshtein_lev (a b : str) : levenshtein a b = Ok (lev a b).
Proof.
  unfold levenshtein. destruct (length a <? length b).
  - rewrite (lev_sym a b). apply outer_loop.
  - apply outer_loop.
Qed.

(** ** Frequency tables *)

Section TallyFacts.
Variable K : Type.
Variable eqb : K -> K -> bool.
Hypothesis eqb_spec : forall x y : K, reflect (x = y) (eqb x y).



Lemma dict_get_set (d : list (K * nat)) (k k' : K) (v : nat) :
  dict_get eqb (dict_set eqb d k v) k' 0 =
  if eqb k k' then v else dict_get eqb d k' 0.
Proof.
  induction d as [|[k0 v0] d IH]; simpl.
  - reflexivity.
  - destruct (eqb_spec k0 k) as [->|Hne]; simpl.
    + destruct (eqb_spec k k'); reflexivity.
    + destruct (eqb_spec k0 k') as [->|Hne'].
      * destruct (eqb_spec k k'); [congruence | reflexivity].
      * apply IH.
Qed.

Lemma dict_keys_set (d : list (K * nat)) (k : K) (v : nat) :
  dict_keys K (dict_set eqb d k v) =
  if in_dec (fun x y => reflect_dec _ _ (eqb_spec x y)) k (dict_keys K d)
  then dict_keys K d else dict_keys K d ++ [k].
Proof.
  induction d as [|[k0 v0] d IH]; simpl.
  - reflexivity.
  - destruct (eqb_spec k0 k) as [->|Hne]; simpl.
    + destruct (reflect_dec _ _ (eqb_spec k k)); [reflexivity | congruence].
    + rewrite IH. destruct (reflect_dec _ _ (eqb_spec k0 k)); [congruence |].
      destruct (in_dec _ k (dict_keys K d)); reflexivity.
Qed.

Lemma dict_values_pos_set (d : list (K * nat)) (k : K) (v : nat) :
  Forall (fun f => 1 <= f) (dict_values d) -> 1 <= v ->
  Forall (fun f => 1 <= f) (dict_values (dict_set eqb d k v)).
Proof.
  intros Hd Hv. induction d as [|[k0 v0] d IH]; simpl.
  - repeat constructor. assumption.
  - inversion Hd; subst. destruct (eqb k0 k); constructor; auto.
Qed.

Lemma fold_tally_pos (xs : list K) (d : list (K * nat)) :
  Forall (fun f => 1 <= f) (dict_values d) ->
  Forall (fun f => 1 <= f) (dict_values (fold_left (tally_step K eqb) xs d)).
Proof.
  revert d. induction xs as [|x xs IH]; intros d Hd; simpl; [assumption |].
  apply IH, dict_values_pos_set; [assumption | lia].
Qed.

Lemma tally_pos (xs : list K) :
  Forall (fun f => 1 <= f) (dict_values (tally eqb xs)).
Proof. apply (fold_tally_pos xs []). constructor. Qed.


Lemma count_if_snoc (p : K -> bool) (l : list K) (x : K) :
  count_if p (l ++ [x]) = count_if p l + (if p x then 1 else 0).
Proof.
  unfold count_if. rewrite filter_app, length_app. simpl.
  destruct (p x); reflexivity.
Qed.

Lemma tallies_step (d : list (K * nat)) (seen : list K) (x : K) :
  tallies K eqb d seen -> tallies K eqb (tally_step K eqb d x) (seen ++ [x]).
Proof.
  intros (Hnd & Hin & Hget). unfold tally_step. repeat split.
  - rewrite dict_keys_set. destruct (in_dec _ x (dict_keys K d)) as [i|n].
    + assumption.
    + apply NoDup_app; repeat split; auto.
      * repeat constructor. intros [].
      * intros a Ha [<-|[]]. contradiction.
  - rewrite dict_keys_set, in_app_iff.
    destruct (in_dec _ x (dict_keys K d)) as [i|n].
    + intros Hk. left. now apply Hin.
    + rewrite in_app_iff. intros [Hk|Hk]; [left; now apply Hin | now right].
  - rewrite dict_keys_set, in_app_iff.
    destruct (in_dec _ x (dict_keys K d)) as [i|n].
    + intros [Hk|[<-|[]]]; [now apply Hin | assumption].
    + rewrite in_app_iff. intros [Hk|Hk]; [left; now apply Hin | now right].
  - intros k. rewrite dict_get_set, count_if_snoc, !Hget.
    destruct (eqb_spec x k) as [->|Hne].
    + destruct (eqb_spec k k); [reflexivity | congruence].
    + destruct (eqb_spec k x); [congruence | lia].
Qed.

Lemma fold_tallies (xs : list K) (d : list (K * nat)) (seen : list K) :
  tallies K eqb d seen -> tallies K eqb (fold_left (tally_step K eqb) xs d) (seen ++ xs).
Proof.
  revert d seen. induction xs as [|x xs IH]; intros d seen H; simpl.
  - now rewrite app_nil_r.
  - replace (seen ++ x :: xs) with ((seen ++ [x]) ++ xs)
      by (rewrite <- app_assoc; reflexivity).
    apply IH, tallies_step, H.
Qed.

Lemma tally_tallies (xs : list K) : tallies K eqb (tally eqb xs) xs.
Proof.
  apply (fold_tallies xs [] []). repeat split; simpl; try tauto. constructor.
Qed.

Lemma dict_values_get (d : list (K * nat)) :
  NoDup (dict_keys K d) ->
  dict_values d = map (fun k => dict_get eqb d k 0) (dict_keys K d).
Proof.
  induction d as [|[k v] d IH]; simpl; intros Hnd; [reflexivity |].
  inversion Hnd as [|? ? Hnotin Hnd']; subst.
  destruct (eqb_spec k k); [| congruence]. f_equal.
  rewrite (IH Hnd'). apply map_ext_in. intros k' Hk'.
  destruct (eqb_spec k k'); [subst; contradiction | reflexivity].
Qed.

(** The values of the table are the counts of its keys. *)
Lemma tally_values (xs : list K) :
  dict_values (tally eqb xs) =
  map (fun k => count_if (eqb k) xs) (dict_keys K (tally eqb xs)).
Proof.
  destruct (tally_tallies xs) as (Hnd & _ & Hget).
  rewrite (dict_values_get _ Hnd). apply map_ext. apply Hget.
Qed.


End TallyFacts.

Lemma chr_eqb_spec (x y : ascii) : reflect (x = y) (chr_eqb x y).
Proof. apply Ascii.eqb_spec. Qed.

Lemma str_eqb_spec (a b : str) : reflect (a = b) (str_eqb a b).
Proof.
  revert b. induction a as [|x a IH]; intros [|y b]; simpl;
    try (constructor; congruence).
  destruct (chr_eqb_spec x y) as [->|Hne]; simpl.
  - destruct (IH b) as [->|Hne]; constructor; congruence.
  - constructor. congruence.
Qed.

(** ** Entropy *)

Open Scope R_scope.



Lemma truediv_ok (a b : R) : b <> 0 -> truediv a b = Ok (a / b).
Proof. intros H. unfold truediv. destruct (Req_dec_T b 0); [contradiction | reflexivity]. Qed.

Lemma log2_ok (x : R) : 0 < x -> log2 x = Ok (log2_R x).
Proof. intros H. unfold log2. destruct (Rle_dec x 0); [lra | reflexivity]. Qed.

Lemma INR_pos (n : nat) : (1 <= n)%nat -> 0 < INR n.
Proof. intros H. apply lt_0_INR. lia. Qed.

Lemma entropy_sum_ok (values : list nat) (n : nat) :
  (1 <= n)%nat -> Forall (fun f => (1 <= f)%nat) values ->
  entropy_sum values n = Ok (- py_sum (map (plogp n) values)).
Proof.
  intros Hn Hv. unfold entropy_sum.
  assert (Hmap : map_r (fun f =>
             p <- truediv (INR f) (INR n) ;;
             q <- truediv (INR f) (INR n) ;;
             l <- log2 q ;;
             Ok (p * l)) values = Ok (map (plogp n) values)).
  { induction Hv as [|f values Hf Hv IH]; simpl; [reflexivity |].
    pose proof (INR_pos n Hn). pose proof (INR_pos f Hf).
    rewrite truediv_ok by lra. cbn [bind].
    rewrite log2_ok by (apply Rdiv_lt_0_compat; assumption). cbn [bind].
    rewrite IH. reflexivity. }
  rewrite Hmap. reflexivity.
Qed.

Lemma shannon_entropy_ok (s : str) :
  shannon_entropy s =
  Ok (match s with
      | [] => 0
      | _ => - py_sum (map (plogp (length s)) (dict_values (tally chr_eqb s)))
      end).
Proof.
  destruct s as [|c s]; [reflexivity |].
  unfold shannon_entropy. apply entropy_sum_ok.
  - simpl. lia.
  - apply tally_pos.
Qed.


Lemma char_ngram_entropy_ok (s : str) (n : nat) :
  char_ngram_entropy s n =
  Ok (if (length s <? n)%nat then 0
      else - py_sum (map (plogp (length (ngrams s n)))
                         (dict_values (tally str_eqb (ngrams s n))))).
Proof.
  unfold char_ngram_entropy. destruct (length s <? n)%nat; [reflexivity |].
  apply entropy_sum_ok.
  - unfold ngrams. rewrite length_map, length_seq. lia.
  - apply tally_pos.
Qed.

Lemma py_sum_shift (xs : list R) (a : R) : fold_left Rplus xs a = a + py_sum xs.
Proof.
  unfold py_sum. revert a. induction xs as [|x xs IH]; intros a; simpl.
  - lra.
  - rewrite IH, (IH (0 + x)). lra.
Qed.

Lemma py_sum_cons (x : R) (xs : list R) : py_sum (x :: xs) = x + py_sum xs.
Proof. unfold py_sum at 1. simpl. rewrite py_sum_shift. lra. Qed.


Lemma ln_2_pos : 0 < ln 2.
Proof. rewrite <- ln_1. apply ln_increasing; lra. Qed.

Lemma plogp_all (n : nat) : plogp n n = 0.
Proof.
  unfold plogp, log2_R. destruct n as [|n].
  - simpl. unfold Rdiv. rewrite Rmult_0_l. lra.
  - assert (INR (S n) <> 0) by (apply not_0_INR; lia).
    replace (INR (S n) / INR (S n)) with 1 by (field; assumption).
    rewrite ln_1. unfold Rdiv. lra.
Qed.


Close Scope R_scope.

(** ** Splitting never yields an empty list *)

Lemma split_chr_cons (c : ascii) (s : str) :
  exists w ws, split_chr c s = w :: ws.
Proof.
  induction s as [|x s [w [ws IH]]]; simpl.
  - eauto.
  - destruct (chr_eqb x c); [eauto |]. rewrite IH. eauto.
Qed.


Lemma getitem_split_0 (c : ascii) (s : str) :
  getitem (split_chr c s) 0 = Ok (head_part c s).
Proof.
  unfold head_part. destruct (split_chr_cons c s) as [w [ws ->]]. reflexivity.
Qed.

Lemma nth_error_last {A : Type} (l : list A) (d : A) :
  l <> [] -> nth_error l (length l - 1) = Some (last l d).
Proof.
  induction l as [|x l IH]; [congruence |]. intros _.
  destruct l as [|y l]; [reflexivity |].
  replace (length (x :: y :: l) - 1) with (S (length (y :: l) - 1))
    by (simpl; lia).
  cbn [nth_error]. rewrite IH by congruence. reflexivity.
Qed.

Lemma last_item_ok {A : Type} (l : list A) (d : A) :
  l <> [] -> last_item l = Ok (last l d).
Proof.
  intros H. unfold last_item. destruct l as [|x l]; [congruence |].
  apply getitem_ok, nth_error_last. congruence.
Qed.

Lemma last_item_split (c : ascii) (s : str) :
  last_item (split_chr c s) = Ok (last_part c s).
Proof.
  apply last_item_ok. destruct (split_chr_cons c s) as [w [ws ->]]. congruence.
Qed.

(** ** The brand distance *)


Lemma map_r_levenshtein (core : str) (bs : list str) :
  map_r (fun b => levenshtein core b) bs = Ok (map (lev core) bs).
Proof.
  induction bs as [|b bs IH]; simpl; [reflexivity |].
  rewrite levenshtein_lev, IH. reflexivity.
Qed.

Lemma min_brand_distance_ok (domain : str) :
  min_brand_distance domain = Ok (brand_distance domain).
Proof.
  unfold min_brand_distance, brand_distance.
  rewrite getitem_split_0. cbn [bind]. rewrite map_r_levenshtein. reflexivity.
Qed.

Lemma any_r_ok {A : Type} (f : A -> result bool) (g : A -> bool) (xs : list A) :
  (forall x, f x = Ok (g x)) -> any_r f xs = Ok (existsb g xs).
Proof.
  intros H. induction xs as [|x xs IH]; simpl; [reflexivity |].
  rewrite H. cbn [bind]. destruct (g x); [reflexivity | exact IH].
Qed.

Section Values.

Variable urlparse : str -> result ParseResult.
Variable set_iter : forall A : Type, list A -> list A.

Lemma suspicious_vpa_ok (m : str) :
  suspicious_vpa set_iter m = Ok (vpa_suspicious set_iter m).
Proof.
  unfold suspicious_vpa. rewrite last_item_split. cbn [bind].
  rewrite getitem_split_0. reflexivity.
Qed.

Lemma upi_scan_ok (ms : list str) :
  upi_scan set_iter ms = Ok (flag (existsb (vpa_suspicious set_iter) ms)).
Proof.
  induction ms as [|m ms IH]; simpl; [reflexivity |].
  rewrite suspicious_vpa_ok. cbn [bind].
  destruct (vpa_suspicious set_iter m); [reflexivity | exact IH].
Qed.

Lemma INR_max_1 (n : nat) : INR (Nat.max n 1) <> 0%R.
Proof. apply not_0_INR. lia. Qed.

Lemma Rmax_1_neq (x : R) : Rmax x 1 <> 0%R.
Proof. pose proof (Rmax_r x 1). lra. Qed.

Lemma bind_eq {A B : Type} (m : result A) (a : A) (k : A -> result B)
    (r : result B) :
  m = Ok a -> k a = r -> bind m k = r.
Proof. intros -> <-. reflexivity. Qed.

Lemma setitem_lt {A : Type} (l : list A) (i : nat) (v : A) :
  (i <? length l) = true -> setitem l i v = Ok (firstn i l ++ v :: skipn (S i) l).
Proof. intros H. unfold setitem. rewrite H. reflexivity. Qed.

Ltac step :=
  eapply bind_eq;
  [ first
      [ apply setitem_lt; reflexivity
      | apply truediv_ok;
        first [ apply INR_max_1 | apply Rmax_1_neq | lra ]
      | apply shannon_entropy_ok
      | apply char_ngram_entropy_ok
      | apply min_brand_distance_ok
      | apply upi_scan_ok
      | apply any_r_ok; intros b; rewrite getitem_split_0; reflexivity ]
  | cbv beta; cbn [firstn skipn app] ].

Lemma extract_features_ok (url : str) :
  extract_features urlparse set_iter url = Ok (feature_values urlparse set_iter url).
Proof.
  unfold extract_features. cbv zeta.
  repeat step.
  reflexivity.
Qed.

End Values.

Lemma join_cons (c : ascii) (w : str) (ws : list str) :
  ws <> [] -> join c (w :: ws) = w ++ c :: join c ws.
Proof. destruct ws; [congruence | reflexivity]. Qed.

Lemma join_split (c : ascii) (s : str) : join c (split_chr c s) = s.
Proof.
  induction s as [|x s IH]; [reflexivity |].
  cbn [split_chr]. destruct (chr_eqb_spec x c) as [->|Hne].
  - destruct (split_chr_cons c s) as [w [ws E]].
    rewrite join_cons by (rewrite E; congruence). rewrite IH. reflexivity.
  - destruct (split_chr_cons c s) as [w [ws E]]. rewrite E in *.
    destruct ws as [|w' ws].
    + simpl in *. congruence.
    + rewrite join_cons in * by congruence. rewrite <- IH. reflexivity.
Qed.

Lemma join_app (c : ascii) (l1 l2 : list str) :
  l1 <> [] -> l2 <> [] -> join c (l1 ++ l2) = join c l1 ++ c :: join c l2.
Proof.
  intros H1 H2. induction l1 as [|w l1 IH]; [congruence |].
  destruct l1 as [|w' l1].
  - simpl app. rewrite join_cons by assumption. reflexivity.
  - change ((w :: w' :: l1) ++ l2) with (w :: ((w' :: l1) ++ l2)).
    rewrite join_cons by (simpl; congruence).
    rewrite IH by congruence. rewrite (join_cons c w (w' :: l1)) by congruence.
    rewrite <- app_assoc. reflexivity.
Qed.

Lemma partition_chr_fst (c : ascii) (s : str) :
  exists a fnd b, partition_chr c s = (a, fnd, b).
Proof. destruct (partition_chr c s) as [[a fnd] b]. eauto. Qed.

Section ParseFacts.

Variable urlparse : str -> result ParseResult.

Lemma parse_url_parts_ok (url : str) (p : ParseResult) :
  urlparse url = Ok p ->
  parse_url_parts urlparse url =
  if str_isdigit (port_str_of p)
  then match py_int (port_str_of p) with
       | Ok n => parsed p (Some n)
       | Raise _ => recovery url
       end
  else parsed p None.
Proof.
  intros E. unfold parse_url_parts, port_str_of, parsed, host_of.
  rewrite E. cbn [bind]. rewrite last_item_split. cbn [bind].
  destruct (partition_chr ":" (last_part "@" (lower (url_netloc p))))
    as [[h fnd] ps].
  cbn [fst snd].
  assert (Htld : (if nonempty (split_chr "." h)
                  then last_item (split_chr "." h) else Ok [])
                 = Ok (last_part "." h)).
  { destruct (split_chr_cons "." h) as [w [ws Ew]].
    rewrite <- last_item_split. rewrite Ew. reflexivity. }
  destruct (str_isdigit ps).
  - destruct (py_int ps) as [n|e]; cbn [bind catch]; [| reflexivity].
    rewrite Htld. reflexivity.
  - cbn [bind]. rewrite Htld. reflexivity.
Qed.

Lemma parse_url_parts_raise (url : str) (e : exn) :
  urlparse url = Raise e -> parse_url_parts urlparse url = recovery url.
Proof. intros E. unfold parse_url_parts. rewrite E. reflexivity. Qed.

(** Either branch. *)
Lemma parse_url_parts_cases (url : str) :
  parse_url_parts urlparse url = recovery url
  \/ exists p n, urlparse url = Ok p /\ parse_url_parts urlparse url = parsed p n.
Proof.
  destruct (urlparse url) as [p|e] eqn:E.
  - rewrite (parse_url_parts_ok url p E).
    destruct (str_isdigit (port_str_of p)); [| right; eauto].
    destruct (py_int (port_str_of p)); [right; eauto | now left].
  - left. now apply parse_url_parts_raise with e.
Qed.

Lemma parsed_reconstruct (p : ParseResult) (n : option N) :
  let q := parsed p n in
  (length (labels q) <= 2 ->
     subdomain q = [] /\ registered_domain q = host q)
  /\ (2 < length (labels q) ->
        subdomain q ++ "."%char :: registered_domain q = host q).
Proof.
  cbn zeta. unfold parsed. cbn [labels subdomain registered_domain host].
  set (h := host_of p). set (ls := split_chr "." h).
  assert (Hj : join "." ls = h) by apply join_split.
  split; intros Hlen.
  - destruct (Nat.ltb_spec 2 (length ls)); [lia |]. split; [reflexivity |].
    destruct (Nat.leb_spec 2 (length ls)); [| reflexivity].
    unfold last_two. replace (length ls - 2) with 0 by lia. exact Hj.
  - destruct (Nat.ltb_spec 2 (length ls)); [| lia].
    destruct (Nat.leb_spec 2 (length ls)); [| lia].
    unfold last_two, but_last_two.
    rewrite <- join_app; [rewrite firstn_skipn; exact Hj | |].
    + intros E. apply (f_equal (@length str)) in E.
      rewrite length_firstn in E. simpl in E. lia.
    + intros E. apply (f_equal (@length str)) in E.
      rewrite length_skipn in E. simpl in E. lia.
Qed.

End ParseFacts.

(** ** Regular expressions *)

(** What a repetition consumed before its continuation succeeded. *)
Lemma rep_inv (cls : ascii -> bool) (k : cont) (g : option str) (out : outcome) :
  forall (s : str) (lo : nat) (hi : option nat) (prev : option ascii),
    rep cls lo hi prev s g k = Some out ->
    exists pre s' p',
      s = pre ++ s' /\ forallb cls pre = true /\ lo <= length pre
      /\ k p' s' g = Some out.
Proof.
  assert (Hstop : forall s lo prev,
             (if lo =? 0 then k prev s g else None) = Some out ->
             exists pre s' p',
               s = pre ++ s' /\ forallb cls pre = true /\ lo <= length pre
               /\ k p' s' g = Some out).
  { intros s lo prev H. destruct (Nat.eqb_spec lo 0); [| discriminate].
    exists [], s, prev. repeat split; simpl; auto; lia. }
  induction s as [|c s IH]; intros lo hi prev H.
  - destruct hi as [[|h]|]; simpl in H; eapply Hstop; eassumption.
  - assert (Hcons :
        (if cls c
         then or_else (rep cls (lo - 1) (option_map pred hi) (Some c) s g k)
                (if lo =? 0 then k prev (c :: s) g else None)
         else if lo =? 0 then k prev (c :: s) g else None) = Some out ->
        exists pre s' p',
          c :: s = pre ++ s' /\ forallb cls pre = true /\ lo <= length pre
          /\ k p' s' g = Some out).
    { intros H'. destruct (cls c) eqn:Ec; [| eapply Hstop; eassumption].
      destruct (rep cls (lo - 1) (option_map pred hi) (Some c) s g k) eqn:Er;
        simpl in H'; [| eapply Hstop; eassumption].
      injection H' as ->.
      destruct (IH _ _ _ Er) as (pre & s' & p' & -> & Hall & Hlo & Hk).
      exists (c :: pre), s', p'. repeat split; simpl; auto.
      - now rewrite Ec.
      - lia. }
    destruct hi as [[|h]|]; cbn [rep] in H.
    + eapply Hstop; eassumption.
    + apply Hcons. exact H.
    + apply Hcons. exact H.
Qed.

Lemma firstn_app_exact {A : Type} (a b : list A) :
  firstn (length (a ++ b) - length b) (a ++ b) = a.
Proof.
  rewrite length_app. replace (length a + length b - length b) with (length a) by lia.
  rewrite firstn_app, Nat.sub_diag, firstn_all. simpl. apply app_nil_r.
Qed.


Lemma upi_match_here (prev : option ascii) (s m : str) (g : option str) :
  match_here upi_re prev s = Some (m, g) ->
  exists local handle rest, vpa_shape m local handle /\ s = m ++ rest.
Proof.
  unfold match_here.
  destruct (rmatch upi_re prev s None (fun _ s' g' => Some (s', g')))
    as [[rest g']|] eqn:E; [| discriminate].
  intros H. injection H as <- <-.
  unfold upi_re, plus in E. cbn [rmatch] in E.
  apply rep_inv in E. destruct E as (l & s1 & p1 & -> & Hl & Hlen & E).
  destruct s1 as [|c s2]; [discriminate |].
  destruct (one "@" c) eqn:Ec; [| discriminate].
  apply rep_inv in E. destruct E as (h & s3 & p3 & -> & Hh & Hlen' & E).
  injection E as <- <-.
  unfold one in Ec. destruct (chr_eqb_spec "@" c) as [<-|]; [| discriminate].
  exists l, h, s3.
  assert (Hm : l ++ "@"%char :: h ++ s3 = (l ++ "@"%char :: h) ++ s3)
    by (rewrite <- app_assoc; reflexivity).
  rewrite Hm, firstn_app_exact. split; [| reflexivity].
  repeat split; auto.
  - intros ->. simpl in Hlen. lia.
  - intros ->. simpl in Hlen'. lia.
Qed.

(** Every text [re_finditer] returns is a match at some position. *)
Lemma finditer_from_in (r : regex) (m : str) :
  forall (s : str) (skip : nat) (prev : option ascii),
    In m (finditer_from r skip prev s) ->
    exists prev' pre s' g, s = pre ++ s' /\ match_here r prev' s' = Some (m, g).
Proof.
  induction s as [|c s IH]; intros skip prev H.
  - destruct skip; [| contradiction]. cbn [finditer_from] in H.
    destruct (match_here r prev []) as [[m' g]|] eqn:E; [| contradiction].
    destruct H as [<-|[]]. exists prev, [], [], g. auto.
  - destruct skip as [|k]; cbn [finditer_from] in H.
    + destruct (match_here r prev (c :: s)) as [[m' g]|] eqn:E.
      * destruct H as [<-|H].
        -- exists prev, [], (c :: s), g. auto.
        -- destruct (IH _ _ H) as (p' & pre & s' & g' & -> & Hm).
           exists p', (c :: pre), s', g'. auto.
      * destruct (IH _ _ H) as (p' & pre & s' & g' & -> & Hm).
        exists p', (c :: pre), s', g'. auto.
    + destruct (IH _ _ H) as (p' & pre & s' & g' & -> & Hm).
      exists p', (c :: pre), s', g'. auto.
Qed.

(** A pattern that needs a character matches at most once per character. *)
Lemma finditer_from_length (r : regex) :
  (forall prev, match_here r prev [] = None) ->
  forall (s : str) (skip : nat) (prev : option ascii),
    length (finditer_from r skip prev s) <= length s.
Proof.
  intros Hnil. induction s as [|c s IH]; intros skip prev.
  - destruct skip; cbn [finditer_from]; [rewrite Hnil |]; simpl; lia.
  - destruct skip as [|k]; cbn [finditer_from].
    + destruct (match_here r prev (c :: s)) as [[m g]|].
      * cbn [length]. specialize (IH (length m - 1) (Some c)). lia.
      * cbn [length]. specialize (IH 0 (Some c)). lia.
    + cbn [length]. specialize (IH k (Some c)). lia.
Qed.

Lemma pct_count_le (url : str) : length (re_finditer pct_re url) <= length url.
Proof. apply finditer_from_length. reflexivity. Qed.





(** ** Counting *)

Lemma count_if_le {A : Type} (p : A -> bool) (l : list A) : count_if p l <= length l.
Proof. apply filter_length_le. Qed.

Lemma count_if_mono {A : Type} (p q : A -> bool) (l : list A) :
  (forall x, p x = true -> q x = true) -> count_if p l <= count_if q l.
Proof.
  intros H. unfold count_if. induction l as [|x l IH]; simpl; [lia |].
  destruct (p x) eqn:Ep.
  - rewrite (H x Ep). simpl. lia.
  - destruct (q x); simpl; lia.
Qed.

Lemma vowel_isalpha (c : ascii) :
  chr_in c "aeiou"%string = true -> isalpha c = true.
Proof.
  unfold chr_in. intros H. apply existsb_exists in H.
  destruct H as [x [Hin Hx]].
  destruct (chr_eqb_spec c x) as [->|]; [| discriminate].
  simpl in Hin.
  repeat (destruct Hin as [<-|Hin]; [reflexivity |]). contradiction.
Qed.

Lemma distinct_chr_le (s : str) : length (distinct_chr s) <= length s.
Proof.
  unfold distinct_chr. induction s as [|c s IH]; simpl; [lia |].
  destruct (in_dec ascii_dec c s); simpl; lia.
Qed.

Lemma fold_max_le (xs : list nat) (a b : nat) :
  a <= b -> Forall (fun x => x <= b) xs -> fold_left Nat.max xs a <= b.
Proof.
  intros Ha H. revert a Ha. induction H as [|x xs Hx H IH]; intros a Ha; simpl.
  - exact Ha.
  - apply IH. lia.
Qed.

Lemma py_max_default_le (xs : list nat) (d b : nat) :
  d <= b -> Forall (fun x => x <= b) xs -> py_max_default xs d <= b.
Proof.
  intros Hd H. destruct H as [|x xs Hx H]; simpl; [exact Hd |].
  now apply fold_max_le.
Qed.

Lemma max_char_repeat_le (it : forall A : Type, list A -> list A) (h : str) :
  max_char_repeat it h <= length h.
Proof.
  unfold max_char_repeat. apply py_max_default_le; [lia |].
  apply Forall_forall. intros x Hx. apply in_map_iff in Hx.
  destruct Hx as [ch [<- _]]. apply count_if_le.
Qed.

(** ** Ratios *)

Open Scope R_scope.

Lemma flag_01 (b : bool) : flag b = 0 \/ flag b = 1.
Proof. destruct b; simpl; auto. Qed.

Lemma flag_1_iff (b : bool) : flag b = 1 <-> b = true.
Proof. destruct b; simpl; split; intros H; try reflexivity; try discriminate; lra. Qed.

Lemma flag_0_iff (b : bool) : flag b = 0 <-> b = false.
Proof. destruct b; simpl; split; intros H; try reflexivity; try discriminate; lra. Qed.

Lemma ratio_01 (a b : nat) :
  (a <= b)%nat -> (1 <= b)%nat -> 0 <= INR a / INR b <= 1.
Proof.
  intros Hab Hb. pose proof (INR_pos b Hb). pose proof (pos_INR a).
  pose proof (le_INR _ _ Hab). split.
  - apply Rmult_le_pos; [assumption | left; now apply Rinv_0_lt_compat].
  - apply Rmult_le_reg_r with (INR b); [assumption |].
    unfold Rdiv. rewrite Rmult_assoc, Rinv_l by lra. lra.
Qed.

Lemma ratio_max_01 (a n : nat) :
  (a <= n)%nat -> 0 <= INR a / INR (Nat.max n 1) <= 1.
Proof. intros H. apply ratio_01; lia. Qed.

Lemma Rmin_1_01 (x : R) : 0 <= x -> 0 <= Rmin x 1 <= 1.
Proof.
  intros H. split; [apply Rmin_glb; lra | apply Rmin_r].
Qed.

Lemma div_nonneg (a : nat) (d : R) : 0 < d -> 0 <= INR a / d.
Proof.
  intros H. apply Rmult_le_pos; [apply pos_INR | left; now apply Rinv_0_lt_compat].
Qed.

Lemma Rmax_1_pos (x : R) : 0 < Rmax x 1.
Proof. pose proof (Rmax_r x 1). lra. Qed.

Lemma brand_norm_01 (d : nat) : 0 <= INR (Nat.min d 10) / 10 <= 1.
Proof.
  assert (H : (Nat.min d 10 <= 10)%nat) by lia.
  apply le_INR in H. pose proof (pos_INR (Nat.min d 10)).
  replace (INR 10) with 10 in H by (simpl; lra). lra.
Qed.

Lemma IZR_nonneg_INR (z : Z) : (0 <= z)%Z -> IZR z = INR (Z.to_nat z).
Proof. intros H. rewrite INR_IZR_INZ, Z2Nat.id by assumption. reflexivity. Qed.

(** ** Entropy is never negative *)

Lemma plogp_nonpos (n f : nat) : (1 <= f <= n)%nat -> plogp n f <= 0.
Proof.
  intros [Hf Hn]. unfold plogp, log2_R.
  pose proof (INR_pos f Hf) as Hpf.
  assert (Hpn : 0 < INR n) by (apply INR_pos; lia).
  assert (Hle : INR f <= INR n) by now apply le_INR.
  assert (Hp : 0 < INR f / INR n) by now apply Rdiv_lt_0_compat.
  assert (Hp1 : INR f / INR n <= 1).
  { apply Rmult_le_reg_r with (INR n); [assumption |].
    unfold Rdiv. rewrite Rmult_assoc, Rinv_l by lra. lra. }
  assert (Hln : ln (INR f / INR n) <= 0).
  { destruct Hp1 as [Hlt|Heq].
    - left. rewrite <- ln_1. now apply ln_increasing.
    - rewrite Heq, ln_1. lra. }
  pose proof ln_2_pos as H2.
  assert (Hq : ln (INR f / INR n) / ln 2 <= 0).
  { unfold Rdiv. rewrite <- (Rmult_0_l (/ ln 2)).
    apply Rmult_le_compat_r; [left; now apply Rinv_0_lt_compat | assumption]. }
  rewrite <- (Rmult_0_r (INR f / INR n)).
  apply Rmult_le_compat_l; [lra | assumption].
Qed.

Lemma py_sum_nonpos (xs : list R) : Forall (fun x => x <= 0) xs -> py_sum xs <= 0.
Proof.
  induction 1 as [|x xs Hx H IH].
  - unfold py_sum. simpl. lra.
  - rewrite py_sum_cons. lra.
Qed.

Lemma entropy_nonneg {K : Type} (eqb : K -> K -> bool) (xs : list K) :
  (forall x y, reflect (x = y) (eqb x y)) ->
  0 <= - py_sum (map (plogp (length xs)) (dict_values (tally eqb xs))).
Proof.
  intros Hspec. 
  assert (H : py_sum (map (plogp (length xs)) (dict_values (tally eqb xs))) <= 0).
  { apply py_sum_nonpos. apply Forall_forall. intros x Hx.
    apply in_map_iff in Hx. destruct Hx as [f [<- Hf]].
    apply plogp_nonpos. split.
    - pose proof (tally_pos K eqb xs) as Hpos.
      rewrite Forall_forall in Hpos. now apply Hpos.
    - rewrite (tally_values K eqb Hspec) in Hf. apply in_map_iff in Hf.
      destruct Hf as [k [<- _]]. apply count_if_le. }
  lra.
Qed.

Close Scope R_scope.

(** ** The order of a set does not matter *)

Lemma existsb_perm {A : Type} (p : A -> bool) (l l' : list A) :
  Permutation l l' -> existsb p l = existsb p l'.
Proof.
  induction 1; simpl; try congruence.
  destruct (p x), (p y); reflexivity.
Qed.

Lemma count_if_perm {A : Type} (p : A -> bool) (l l' : list A) :
  Permutation l l' -> count_if p l = count_if p l'.
Proof.
  induction 1; unfold count_if in *; simpl; try congruence.
  - destruct (p x); simpl; congruence.
  - destruct (p x), (p y); reflexivity.
Qed.

Lemma py_max_default_fold (xs : list nat) :
  py_max_default xs 0 = fold_right Nat.max 0 xs.
Proof.
  destruct xs as [|x xs]; [reflexivity |]. simpl.
  revert x. induction xs as [|y xs IH]; intros x; simpl; [lia |].
  rewrite IH. lia.
Qed.

Lemma py_max_default_perm (l l' : list nat) :
  Permutation l l' -> py_max_default l 0 = py_max_default l' 0.
Proof.
  intros H. rewrite !py_max_default_fold.
  induction H; simpl; lia.
Qed.

Lemma existsb_eq {A : Type} (p q : A -> bool) (l : list A) :
  (forall x, p x = q x) -> existsb p l = existsb q l.
Proof. intros H. induction l as [|x l IH]; simpl; [reflexivity |]. now rewrite H, IH. Qed.

Section Orders.

Variable it1 it2 : forall A : Type, list A -> list A.
Hypothesis perm1 : forall (A : Type) (l : list A), Permutation (it1 A l) l.
Hypothesis perm2 : forall (A : Type) (l : list A), Permutation (it2 A l) l.

Lemma any_in_order (p : str -> bool) (kws : list str) :
  any_in it1 p kws = any_in it2 p kws.
Proof.
  unfold any_in. apply existsb_perm.
  apply Permutation_trans with kws; [apply perm1 | apply Permutation_sym, perm2].
Qed.

Lemma hits_in_order (p : str -> bool) (kws : list str) :
  hits_in it1 p kws = hits_in it2 p kws.
Proof.
  unfold hits_in. apply count_if_perm.
  apply Permutation_trans with kws; [apply perm1 | apply Permutation_sym, perm2].
Qed.

Lemma vpa_suspicious_order (m : str) :
  vpa_suspicious it1 m = vpa_suspicious it2 m.
Proof. unfold vpa_suspicious. now rewrite any_in_order. Qed.

Lemma max_char_repeat_order (h : str) :
  max_char_repeat it1 h = max_char_repeat it2 h.
Proof.
  unfold max_char_repeat. apply py_max_default_perm, Permutation_map.
  apply Permutation_trans with (distinct_chr h);
    [apply perm1 | apply Permutation_sym, perm2].
Qed.

Lemma feature_values_order (urlparse : str -> result ParseResult) (url : str) :
  feature_values urlparse it1 url = feature_values urlparse it2 url.
Proof.
  unfold feature_values.
  rewrite !(any_in_order), hits_in_order, max_char_repeat_order.
  rewrite (existsb_eq _ _ _ vpa_suspicious_order).
  reflexivity.
Qed.

End Orders.

(** * The claims of the specification *)

Open Scope string_scope.

Lemma insertion_order_perm (A : Type) (l : list A) :
  Permutation (insertion_order A l) l.
Proof. apply Permutation_refl. Qed.


Lemma reverse_order_perm (A : Type) (l : list A) :
  Permutation (reverse_order A l) l.
Proof. apply Permutation_sym, Permutation_rev. Qed.

Lemma feature_values_length (urlparse : str -> result ParseResult)
    (it : forall A : Type, list A -> list A) (url : str) :
  length (feature_values urlparse it url) = 56.
Proof. reflexivity. Qed.

(** Reading one named entry of the vector. *)
Ltac entry :=
  unfold feature;
  match goal with
  | |- context [index_of ?n FEATURE_NAMES] =>
      let k := eval vm_compute in (index_of n FEATURE_NAMES) in
      change (index_of n FEATURE_NAMES) with k
  end;
  unfold feature_values; cbv zeta; cbn [nth].

(** C1. For every input string [extract_features] returns a vector of
    exactly 56 reals and raises nothing: no division meets a zero
    denominator, no logarithm leaves its domain, no index is out of range,
    and what [urlparse] or the port conversion raise is absorbed by
    [parse_url_parts]. *)
Theorem extract_features_total :
  forall (urlparse : str -> result ParseResult)
         (set_iter : forall A : Type, list A -> list A) (url : str),
    exists f : list R,
      extract_features urlparse set_iter url = Ok f /\ length f = 56.
Proof.
  intros urlparse set_iter url. exists (feature_values urlparse set_iter url).
  split; [apply extract_features_ok | reflexivity].
Qed.




Lemma shannon_value_nonneg (s : str) :
  (0 <= match s with
        | [] => 0
        | _ :: _ => - py_sum (map (plogp (length s)) (dict_values (tally chr_eqb s)))
        end)%R.
Proof.
  destruct s as [|c s]; [lra |]. apply entropy_nonneg, chr_eqb_spec.
Qed.

Lemma ngram_value_nonneg (s : str) (n : nat) :
  (0 <= if (length s <? n)%nat then 0
        else - py_sum (map (plogp (length (ngrams s n)))
                           (dict_values (tally str_eqb (ngrams s n)))))%R.
Proof.
  destruct (length s <? n)%nat; [lra |]. apply entropy_nonneg, str_eqb_spec.
Qed.

Ltac shape_case :=
  match goal with
  | |- has_shape (declared_shape ?n) _ =>
      let s := eval vm_compute in (declared_shape n) in
      change (declared_shape n) with s
  end;
  cbn [has_shape nth];
  first
    [ apply flag_01
    | eexists; reflexivity
    | eexists; apply IZR_nonneg_INR; lia
    | apply shannon_value_nonneg
    | apply ngram_value_nonneg
    | apply brand_norm_01
    | apply ratio_max_01;
      first [ apply count_if_le | apply pct_count_le | apply distinct_chr_le
            | apply max_char_repeat_le
            | apply count_if_mono, vowel_isalpha ]
    | apply Rmin_1_01, div_nonneg; first [ lra | apply Rmax_1_pos ] ].

(** C3. For every input string each entry of the vector has the shape
    declared for its name: a flag is 0 or 1, a count is a natural number, a
    normalised ratio lies in [0, 1]; the five entropies are non-negative
    reals. Every entry is a real number, so none is NaN or infinite. *)
Theorem feature_shapes :
  forall (urlparse : str -> result ParseResult)
         (set_iter : forall A : Type, list A -> list A) (url : str),
    exists f : list R,
      extract_features urlparse set_iter url = Ok f
      /\ length f = length FEATURE_NAMES
      /\ forall (i : nat) (name : string),
           nth_error FEATURE_NAMES i = Some name ->
           has_shape (declared_shape name) (nth i f 0%R).
Proof.
  intros urlparse set_iter url. exists (feature_values urlparse set_iter url).
  split; [apply extract_features_ok |]. split; [reflexivity |].
  intros i name H. unfold feature_values. cbv zeta.
  do 56 (destruct i as [|i]; [injection H as <-; shape_case |]).
  destruct i; discriminate.
Qed.

Lemma feature_shapes_witness :
  exists f : list R,
    extract_features UrlLib.urlparse insertion_order "http://paypal.com" = Ok f
    /\ (0 <= nth 10 f 0 <= 1)%R.
Proof.
  destruct (feature_shapes UrlLib.urlparse insertion_order "http://paypal.com")
    as [f [Hf [_ H]]].
  exists f. split; [exact Hf |].
  apply (H 10%nat "digit_ratio"). reflexivity.
Defined.

(** C4. The vector depends on the input string alone: the same string gives
    the same vector, whatever the order in which the sets of the extractor
    are iterated (the one thing a run of the interpreter may change). *)
Theorem extract_features_deterministic :
  forall (urlparse : str -> result ParseResult)
         (order1 order2 : forall A : Type, list A -> list A),
    (forall (A : Type) (l : list A), Permutation (order1 A l) l) ->
    (forall (A : Type) (l : list A), Permutation (order2 A l) l) ->
    forall url1 url2 : str,
      url1 = url2 ->
      extract_features urlparse order1 url1 = extract_features urlparse order2 url2.
Proof.
  intros urlparse order1 order2 H1 H2 url1 url2 <-.
  rewrite !extract_features_ok. f_equal.
  now apply feature_values_order.
Qed.

Lemma extract_features_deterministic_witness :
  extract_features UrlLib.urlparse insertion_order "http://paypal.com/login"
  = extract_features UrlLib.urlparse reverse_order "http://paypal.com/login".
Proof.
  apply extract_features_deterministic.
  - apply insertion_order_perm.
  - apply reverse_order_perm.
  - reflexivity.
Defined.




(** C6. [levenshtein] is a metric on strings: it is symmetric, it is zero
    exactly on equal strings, and it satisfies the triangle inequality (and
    it always returns). *)
Theorem levenshtein_metric :
  (forall a b : str, levenshtein a b = levenshtein b a)
  /\ (forall a b : str, levenshtein a b = Ok 0 <-> a = b)
  /\ (forall a b c : str,
        exists dab dbc dac : nat,
          levenshtein a b = Ok dab /\ levenshtein b c = Ok dbc
          /\ levenshtein a c = Ok dac /\ dac <= dab + dbc).
Proof.
  split; [| split].
  - intros a b. rewrite !levenshtein_lev, lev_sym. reflexivity.
  - intros a b. rewrite levenshtein_lev. split.
    + intros H. injection H as H. now apply lev_zero_iff.
    + intros H. f_equal. now apply lev_zero_iff.
  - intros a b c. exists (lev a b), (lev b c), (lev a c).
    rewrite !levenshtein_lev. repeat split. apply lev_triangle.
Qed.

(** ** The minimum over the brands *)

Lemma fold_min_spec (xs : list nat) (x : nat) :
  Forall (fun y => fold_left Nat.min xs x <= y) (x :: xs)
  /\ In (fold_left Nat.min xs x) (x :: xs).
Proof.
  revert x. induction xs as [|y xs IH]; intros x; simpl.
  - split; [repeat constructor | auto].
  - destruct (IH (Nat.min x y)) as [Hall Hin]. split.
    + inversion Hall as [|? ? Hm Hxs]; subst.
      constructor; [lia |]. constructor; [lia | assumption].
    + destruct Hin as [Hin|Hin]; [| auto].
      rewrite <- Hin.
      destruct (Nat.min_spec x y) as [[_ ->]|[_ ->]]; auto.
Qed.

Lemma brand_distance_min (domain : str) :
  let core := lower (head_part "." domain) in
  (forall b, In b BRANDS -> brand_distance domain <= lev core b)
  /\ (exists b, In b BRANDS /\ lev core b = brand_distance domain).
Proof.
  cbn zeta. unfold brand_distance.
  set (core := lower (head_part "." domain)).
  destruct BRANDS as [|b0 bs] eqn:E; [discriminate |].
  cbn [map]. destruct (fold_min_spec (map (lev core) bs) (lev core b0))
    as [Hall Hin].
  split.
  - intros b Hb. rewrite Forall_forall in Hall. apply Hall.
    change (lev core b0 :: map (lev core) bs) with (map (lev core) (b0 :: bs)).
    now apply in_map.
  - change (lev core b0 :: map (lev core) bs) with (map (lev core) (b0 :: bs)) in Hin.
    apply in_map_iff in Hin. destruct Hin as [b [Hb Hin]]. eauto.
Qed.

Lemma brand_distance_eq (domain : str) (d : nat) :
  min_brand_distance domain = Ok d -> brand_distance domain = d.
Proof. rewrite min_brand_distance_ok. now intros [= ->]. Qed.

Lemma spoof_flag_iff (d : nat) :
  flag ((0 <? d)%nat && (d <=? 2)%nat) = 1%R <-> 0 < d <= 2.
Proof.
  rewrite flag_1_iff, andb_true_iff, Nat.ltb_lt, Nat.leb_le. tauto.
Qed.

Lemma spoof_flag_of_distance (urlparse : str -> result ParseResult)
    (it : forall A : Type, list A -> list A) (url : str) (d : nat) :
  min_brand_distance (registered_domain (parse_url_parts urlparse url)) = Ok d ->
  feature "brand_spoof_flag" (feature_values urlparse it url)
  = flag ((0 <? d)%nat && (d <=? 2)%nat).
Proof.
  intros H. entry. now rewrite (brand_distance_eq _ d H).
Qed.

(** C7. With [d] what [min_brand_distance] returns for the registered
    domain, the least [levenshtein] distance from its lowercased first label
    to a brand: [brand_spoof_flag] is 1 exactly when [0 < d <= 2] and 0
    otherwise, and [brand_distance_norm] is [min(d, 10) / 10]. For
    [paypal.com] the distance is 0 and the flag 0; for [paypa1.com] the
    distance is 1 and the flag 1. *)
Theorem brand_spoof_features :
  (forall (urlparse : str -> result ParseResult)
          (set_iter : forall A : Type, list A -> list A) (url : str),
     exists (f : list R) (d : nat),
       extract_features urlparse set_iter url = Ok f
       /\ min_brand_distance (registered_domain (parse_url_parts urlparse url)) = Ok d
       /\ (let core := lower (head_part "."
                         (registered_domain (parse_url_parts urlparse url))) in
           (forall b, In b BRANDS ->
              exists db, levenshtein core b = Ok db /\ d <= db)
           /\ (exists b, In b BRANDS /\ levenshtein core b = Ok d))
       /\ (feature "brand_spoof_flag" f = 1%R <-> 0 < d <= 2)
       /\ (feature "brand_spoof_flag" f = 0%R <-> ~ 0 < d <= 2)
       /\ feature "brand_distance_norm" f = (INR (Nat.min d 10) / 10)%R)
  /\ min_brand_distance "paypal.com" = Ok 0
  /\ min_brand_distance "paypa1.com" = Ok 1
  /\ (forall set_iter : forall A : Type, list A -> list A,
        exists f : list R,
          extract_features UrlLib.urlparse set_iter "http://paypal.com" = Ok f
          /\ feature "brand_spoof_flag" f = 0%R)
  /\ (forall set_iter : forall A : Type, list A -> list A,
        exists f : list R,
          extract_features UrlLib.urlparse set_iter "http://paypa1.com" = Ok f
          /\ feature "brand_spoof_flag" f = 1%R).
Proof.
  split; [| split; [vm_compute; reflexivity |
            split; [vm_compute; reflexivity | split]]].
  - intros urlparse set_iter url.
    exists (feature_values urlparse set_iter url).
    exists (brand_distance (registered_domain (parse_url_parts urlparse url))).
    split; [apply extract_features_ok |].
    split; [apply min_brand_distance_ok |].
    split.
    { destruct (brand_distance_min
                  (registered_domain (parse_url_parts urlparse url)))
        as [Hle [b [Hb Hd]]].
      split.
      - intros b' Hb'. exists (lev (lower (head_part "."
                   (registered_domain (parse_url_parts urlparse url)))) b').
        split; [apply levenshtein_lev | now apply Hle].
      - exists b. split; [assumption |]. rewrite levenshtein_lev. now f_equal. }
    split; [entry; apply spoof_flag_iff |].
    split; [| entry; reflexivity].
    entry. rewrite flag_0_iff. rewrite <- spoof_flag_iff, flag_1_iff.
    destruct ((0 <? _)%nat && _); split; congruence.
  - intros set_iter. eexists. split; [apply extract_features_ok |].
    etransitivity;
      [apply spoof_flag_of_distance; vm_compute; reflexivity | reflexivity].
  - intros set_iter. eexists. split; [apply extract_features_ok |].
    etransitivity;
      [apply spoof_flag_of_distance; vm_compute; reflexivity | reflexivity].
Qed.

(** ** The loop over the payment addresses *)





(** C9. For [http://paypal-secure.account-verify.xyz/signin] the extractor
    gives [is_https = 0], [suspicious_tld = 1], [hyphen_in_domain = 1],
    [has_trust_kw_in_domain = 1] and [brand_in_subdomain_only = 1]: the
    subdomain is [paypal-secure], which holds a brand, and the first label
    of the registered domain is [account-verify], which holds none. *)
Theorem paypal_secure_example :
  forall set_iter : forall A : Type, list A -> list A,
    (forall (A : Type) (l : list A), Permutation (set_iter A l) l) ->
    let url : str := "http://paypal-secure.account-verify.xyz/signin" in
    exists f : list R,
      extract_features UrlLib.urlparse set_iter url = Ok f
      /\ feature "is_https" f = 0%R
      /\ feature "suspicious_tld" f = 1%R
      /\ feature "hyphen_in_domain" f = 1%R
      /\ feature "has_trust_kw_in_domain" f = 1%R
      /\ feature "brand_in_subdomain_only" f = 1%R
      /\ subdomain (parse_url_parts UrlLib.urlparse url) = "paypal-secure"
      /\ registered_domain (parse_url_parts UrlLib.urlparse url)
         = "account-verify.xyz"
      /\ existsb (fun b => contains b "paypal-secure") BRANDS = true
      /\ existsb (fun b => contains b "account-verify") BRANDS = false.
Proof.
  intros set_iter Hperm url. subst url.
  eexists. split; [apply extract_features_ok |].
  split; [entry; apply flag_0_iff; vm_compute; reflexivity |].
  split; [entry; apply flag_1_iff; vm_compute; reflexivity |].
  split; [entry; apply flag_1_iff; vm_compute; reflexivity |].
  split.
  { entry. apply flag_1_iff.
    rewrite (any_in_order set_iter insertion_order Hperm insertion_order_perm).
    vm_compute. reflexivity. }
  split; [entry; apply flag_1_iff; vm_compute; reflexivity |].
  repeat split; vm_compute; reflexivity.
Qed.

Lemma paypal_secure_example_witness :
  exists f : list R,
    extract_features UrlLib.urlparse insertion_order
      "http://paypal-secure.account-verify.xyz/signin" = Ok f
    /\ feature "brand_in_subdomain_only" f = 1%R.
Proof.
  destruct (paypal_secure_example insertion_order insertion_order_perm)
    as [f (Hf & _ & _ & _ & _ & H & _)].
  exists f. split; assumption.
Defined.

(** C10. For every input the parsed URL can be put together again: with at
    most two labels (and on the recovery path) the subdomain is empty and
    the registered domain is the host; with more, the subdomain, a dot and
    the registered domain make up the host. The registered domain is always
    a suffix of the host. *)
Theorem registered_domain_reconstruction :
  forall (urlparse : str -> result ParseResult) (url : str),
    let p := parse_url_parts urlparse url in
    ((subdomain p = [] /\ registered_domain p = host p)
     \/ (subdomain p ++ "."%char :: registered_domain p)%list = host p)
    /\ (exists pre : str, host p = (pre ++ registered_domain p)%list)
    /\ (length (labels p) <= 2 ->
        subdomain p = [] /\ registered_domain p = host p)
    /\ (2 < length (labels p) ->
        (subdomain p ++ "."%char :: registered_domain p)%list = host p).
Proof.
  intros urlparse url p.
  assert (H : (length (labels p) <= 2 ->
               subdomain p = [] /\ registered_domain p = host p)
              /\ (2 < length (labels p) ->
                  (subdomain p ++ "."%char :: registered_domain p)%list = host p)).
  { subst p. destruct (parse_url_parts_cases urlparse url) as [->|[q [n [_ ->]]]].
    - simpl. split; [auto | lia].
    - apply parsed_reconstruct. }
  destruct H as [H2 H3].
  destruct (Nat.le_gt_cases (length (labels p)) 2) as [Hle|Hgt].
  - destruct (H2 Hle) as [Hs Hr].
    split; [left; split; assumption |].
    split; [exists []; now rewrite Hr |].
    split; assumption.
  - pose proof (H3 Hgt) as Hh.
    split; [right; assumption |].
    split; [| split; assumption].
    exists (subdomain p ++ ["."%char])%list.
    rewrite <- app_assoc. now symmetry.
Qed.

Lemma registered_domain_reconstruction_witness :
  let p := parse_url_parts UrlLib.urlparse "https://mail.google.com/inbox" in
  (subdomain p ++ "."%char :: registered_domain p)%list = host p.
Proof.
  apply (registered_domain_reconstruction UrlLib.urlparse
           "https://mail.google.com/inbox").
  vm_compute. lia.
Defined.

Close Scope string_scope.

(** * Further properties of the code *)

(** ** Edit scripts and lengths *)

Lemma edit_length (a b : str) (n : nat) :
  edit a b n -> length a <= length b + n /\ length b <= length a + n.
Proof. induction 1; simpl; lia. Qed.

Lemma edit_upper (a : str) :
  forall b : str, exists n, edit a b n /\ n <= Nat.max (length a) (length b).
Proof.
  induction a as [|x a IH]; intros b.
  - exists (length b). split; [apply edit_ins_all | simpl; lia].
  - destruct b as [|y b].
    + exists (length (x :: a)). split; [apply edit_del_all | simpl; lia].
    + destruct (IH b) as [n [Hn Hle]]. exists (n + cost x y).
      split; [now constructor |]. unfold cost. simpl.
      destruct (chr_eqb x y); lia.
Qed.

(** X1. [levenshtein] returns the least number of single-character
    insertions, deletions and substitutions that turn [a] into [b]; it lies
    between the difference of the two lengths and the larger length. *)
Theorem levenshtein_edit_distance :
  forall a b : str,
    exists d : nat,
      levenshtein a b = Ok d
      /\ edit a b d
      /\ (forall n, edit a b n -> d <= n)
      /\ length a - length b <= d
      /\ length b - length a <= d
      /\ d <= Nat.max (length a) (length b).
Proof.
  intros a b. exists (lev a b). split; [apply levenshtein_lev |].
  split; [apply lev_edit |]. split; [intros n; apply lev_le_edit |].
  destruct (edit_length a b (lev a b) (lev_edit a b)) as [H1 H2].
  destruct (edit_upper a b) as [n [Hn Hle]]. apply lev_le_edit in Hn.
  lia.
Qed.

Lemma levenshtein_edit_distance_witness :
  exists d : nat,
    levenshtein (list_ascii_of_string "kitten") (list_ascii_of_string "sitting")
    = Ok d /\ d <= 3.
Proof.
  destruct (levenshtein_edit_distance (list_ascii_of_string "kitten")
              (list_ascii_of_string "sitting")) as [d (Hd & _ & Hmin & _)].
  exists d. split; [exact Hd |]. apply Hmin.
  replace 3 with (lev (list_ascii_of_string "kitten")
                      (list_ascii_of_string "sitting"))
    by (vm_compute; reflexivity).
  apply lev_edit.
Defined.


(** ** The parts of a split *)

Lemma chr_eqb_sym (x y : ascii) : chr_eqb x y = chr_eqb y x.
Proof. apply Ascii.eqb_sym. Qed.

Lemma split_chr_length (c : ascii) (s : str) :
  length (split_chr c s) = count_chr c s + 1.
Proof.
  unfold count_chr. induction s as [|x s IH]; [reflexivity |].
  cbn [split_chr filter]. rewrite (chr_eqb_sym c x).
  destruct (chr_eqb x c).
  - cbn [length]. rewrite IH. reflexivity.
  - destruct (split_chr_cons c s) as [w [ws E]]. rewrite E in *.
    exact IH.
Qed.

Lemma split_chr_parts (P : ascii -> Prop) (c : ascii) (s : str) :
  Forall P s ->
  Forall (fun w => Forall P w /\ chr_in c w = false) (split_chr c s).
Proof.
  induction 1 as [|x s Hx Hs IH]; cbn [split_chr].
  - repeat constructor.
  - destruct (chr_eqb_spec x c) as [->|Hne].
    + constructor; [split; [constructor | reflexivity] | exact IH].
    + destruct (split_chr_cons c s) as [w [ws E]]. rewrite E in *.
      inversion IH as [|? ? [Hw Hc] Hws]; subst.
      constructor; [| assumption]. split; [now constructor |].
      unfold chr_in. cbn [existsb].
      destruct (chr_eqb_spec c x); [congruence | exact Hc].
Qed.

Lemma last_in {A : Type} (l : list A) (d : A) : l <> [] -> In (last l d) l.
Proof.
  induction l as [|x l IH]; [congruence |]. intros _.
  destruct l as [|y l]; [now left |]. right. apply IH. congruence.
Qed.

Lemma last_part_in (c : ascii) (s : str) : In (last_part c s) (split_chr c s).
Proof.
  unfold last_part. apply last_in.
  destruct (split_chr_cons c s) as [w [ws ->]]. congruence.
Qed.

Lemma partition_chr_before (P : ascii -> Prop) (c : ascii) (s : str) :
  Forall P s ->
  Forall P (fst (fst (partition_chr c s)))
  /\ chr_in c (fst (fst (partition_chr c s))) = false.
Proof.
  induction 1 as [|x s Hx Hs [IH1 IH2]]; cbn [partition_chr].
  - split; [constructor | reflexivity].
  - destruct (chr_eqb_spec x c) as [->|Hne]; cbn [fst].
    + split; [constructor | reflexivity].
    + destruct (partition_chr c s) as [[a fnd] b]. cbn [fst] in *.
      split; [now constructor |]. unfold chr_in. cbn [existsb].
      destruct (chr_eqb_spec c x); [congruence | exact IH2].
Qed.

Lemma lower_chr_idem (c : ascii) : lower_chr (lower_chr c) = lower_chr c.
Proof. destruct c as [[] [] [] [] [] [] [] []]; reflexivity. Qed.

Lemma lower_fixed (s : str) :
  Forall (fun c => lower_chr c = c) s -> lower s = s.
Proof.
  induction 1 as [|c s Hc Hs IH]; [reflexivity |].
  unfold lower in *. cbn [map]. now rewrite Hc, IH.
Qed.

Lemma lower_is_lower (s : str) : Forall (fun c => lower_chr c = c) (lower s).
Proof.
  unfold lower. apply Forall_forall. intros c Hc. apply in_map_iff in Hc.
  destruct Hc as [x [<- _]]. apply lower_chr_idem.
Qed.

Lemma host_of_chars (p : ParseResult) :
  chr_in "@" (host_of p) = false
  /\ chr_in ":" (host_of p) = false
  /\ lower (host_of p) = host_of p.
Proof.
  unfold host_of.
  pose proof (split_chr_parts _ "@" _ (lower_is_lower (url_netloc p))) as Hs.
  rewrite Forall_forall in Hs.
  destruct (Hs _ (last_part_in "@" (lower (url_netloc p)))) as [Hlow Hat].
  destruct (partition_chr_before _ ":" _ Hlow) as [Hlow' Hcolon].
  split; [| split; [exact Hcolon | now apply lower_fixed]].
  assert (Hat' : Forall (fun c => chr_eqb "@" c = false)
                   (last_part "@" (lower (url_netloc p)))).
  { apply Forall_forall. intros c Hc.
    destruct (chr_eqb "@" c) eqn:E; [| reflexivity].
    assert (chr_in "@" (last_part "@" (lower (url_netloc p))) = true)
      by (apply existsb_exists; eauto).
    congruence. }
  destruct (partition_chr_before _ ":" _ Hat') as [H _].
  unfold chr_in. destruct (existsb _ _) eqn:E; [| reflexivity].
  apply existsb_exists in E. destruct E as [c [Hc Ec]].
  rewrite Forall_forall in H. rewrite (H c Hc) in Ec. discriminate.
Qed.

(** X2. The labels always join back to the host. Off the recovery path the
    host has one label more than it has dots, no label holds a dot, and the
    TLD is the last label; on the recovery path the whole input is the one
    label, dots included, and the TLD is empty. *)
Theorem host_labels :
  forall (urlparse : str -> result ParseResult) (url : str),
    let p := parse_url_parts urlparse url in
    join "." (labels p) = host p
    /\ (p <> recovery url ->
        length (labels p) = count_chr "." (host p) + 1
        /\ (forall l, In l (labels p) -> chr_in "." l = false)
        /\ tld p = last (labels p) [])
    /\ (p = recovery url -> labels p = [url] /\ tld p = []).
Proof.
  intros urlparse url p. subst p.
  destruct (parse_url_parts_cases urlparse url) as [->|[q [n [_ ->]]]].
  - split; [reflexivity |]. split; [congruence | auto].
  - split; [apply join_split |]. split.
    + intros _. cbn [labels host tld parsed]. split; [apply split_chr_length |].
      split; [| reflexivity].
      intros l Hl.
      assert (H : Forall (fun _ : ascii => True) (host_of q))
        by (apply Forall_forall; auto).
      apply (split_chr_parts _ ".") in H. rewrite Forall_forall in H.
      now apply H.
    + intros ->. split; reflexivity.
Qed.

Lemma host_labels_witness :
  let p := parse_url_parts UrlLib.urlparse
             (list_ascii_of_string "https://mail.google.com/inbox") in
  length (labels p) = count_chr "." (host p) + 1.
Proof.
  apply (host_labels UrlLib.urlparse
           (list_ascii_of_string "https://mail.google.com/inbox")).
  vm_compute. discriminate.
Defined.

(** X3. Off the recovery path the host holds neither [@] nor [:] (user
    information and everything from the first colon on are cut off, so a
    bracketed IPv6 literal is cut at its first colon) and host and scheme
    are in lower case. *)
Theorem host_charset :
  forall (urlparse : str -> result ParseResult) (url : str),
    let p := parse_url_parts urlparse url in
    p <> recovery url ->
    chr_in "@" (host p) = false
    /\ chr_in ":" (host p) = false
    /\ lower (host p) = host p
    /\ lower (scheme p) = scheme p.
Proof.
  intros urlparse url p Hne. subst p.
  destruct (parse_url_parts_cases urlparse url) as [E|[q [n [_ E]]]];
    [contradiction |].
  rewrite E. cbn [host scheme parsed].
  destruct (host_of_chars q) as (H1 & H2 & H3).
  repeat split; auto. apply lower_fixed, lower_is_lower.
Qed.

Lemma host_charset_witness :
  chr_in ":" (host (parse_url_parts UrlLib.urlparse
                      (list_ascii_of_string "HTTP://User:pw@[::1]:8080/x")))
  = false.
Proof.
  apply (host_charset UrlLib.urlparse
           (list_ascii_of_string "HTTP://User:pw@[::1]:8080/x")).
  vm_compute. discriminate.
Defined.

Open Scope string_scope.

(** ** Relations between features *)

Lemma contains_nil_false (b : str) : b <> [] -> contains b [] = false.
Proof. destruct b; [congruence | reflexivity]. Qed.

Lemma parse_subdomain_labels (urlparse : str -> result ParseResult) (url : str) :
  subdomain (parse_url_parts urlparse url) <> [] ->
  2 < length (labels (parse_url_parts urlparse url)).
Proof.
  destruct (parse_url_parts_cases urlparse url) as [->|[q [n [_ ->]]]].
  - simpl. congruence.
  - cbn [subdomain labels parsed].
    destruct (Nat.ltb_spec 2 (length (split_chr "." (host_of q))));
      [auto | congruence].
Qed.

Lemma nonempty_true {A : Type} (l : list A) : nonempty l = true -> l <> [].
Proof. destruct l; [discriminate | congruence]. Qed.

(** X4. A URL flagged [has_subdomain] has a [subdomain_depth] of at least
    1, and one flagged [brand_in_subdomain_only] is flagged
    [has_subdomain]. *)
Theorem subdomain_features :
  forall (urlparse : str -> result ParseResult)
         (set_iter : forall A : Type, list A -> list A) (url : str),
    exists f : list R,
      extract_features urlparse set_iter url = Ok f
      /\ (feature "has_subdomain" f = 1%R ->
          (1 <= feature "subdomain_depth" f)%R)
      /\ (feature "brand_in_subdomain_only" f = 1%R ->
          feature "has_subdomain" f = 1%R).
Proof.
  intros urlparse set_iter url. eexists.
  split; [apply extract_features_ok |]. split.
  - entry. intros H. apply flag_1_iff, nonempty_true in H.
    apply parse_subdomain_labels in H.
    apply IZR_le. lia.
  - entry. intros H. apply flag_1_iff, andb_true_iff in H.
    destruct H as [H _]. apply flag_1_iff.
    destruct (subdomain (parse_url_parts urlparse url)); [| reflexivity].
    vm_compute in H. discriminate.
Qed.

Lemma subdomain_features_witness :
  exists f : list R,
    extract_features UrlLib.urlparse insertion_order
      "http://paypal-secure.account-verify.xyz/signin" = Ok f
    /\ feature "has_subdomain" f = 1%R.
Proof.
  destruct (subdomain_features UrlLib.urlparse insertion_order
              "http://paypal-secure.account-verify.xyz/signin")
    as [f (Hf & _ & H)].
  exists f. split; [exact Hf |]. apply H.
  rewrite extract_features_ok in Hf. injection Hf as <-.
  entry. apply flag_1_iff. vm_compute. reflexivity.
Defined.

(** ** A scan finds something exactly when a search does *)

Lemma finditer_search (r : regex) :
  forall (s : str) (skip : nat) (prev : option ascii),
    finditer_from r skip prev s <> [] -> found (search_from r prev s) = true.
Proof.
  induction s as [|c s IH]; intros skip prev H.
  - destruct skip; cbn [finditer_from] in H; [| congruence].
    cbn [search_from]. destruct (match_here r prev []); [reflexivity | congruence].
  - cbn [search_from]. destruct skip as [|k]; cbn [finditer_from] in H.
    + destruct (match_here r prev (c :: s)) as [[m g]|]; [reflexivity |].
      now apply IH with 0.
    + destruct (match_here r prev (c :: s)); [reflexivity |].
      now apply IH with k.
Qed.

(** X5. A URL flagged [suspicious_upi_vpa] is flagged [upi_vpa_present]. *)
Theorem suspicious_vpa_is_present :
  forall (urlparse : str -> result ParseResult)
         (set_iter : forall A : Type, list A -> list A) (url : str),
    exists f : list R,
      extract_features urlparse set_iter url = Ok f
      /\ (feature "suspicious_upi_vpa" f = 1%R ->
          feature "upi_vpa_present" f = 1%R).
Proof.
  intros urlparse set_iter url. eexists.
  split; [apply extract_features_ok |].
  entry. intros H. apply flag_1_iff in H. apply flag_1_iff.
  apply (finditer_search upi_re url 0 None).
  unfold re_finditer in H. destruct (finditer_from upi_re 0 None url);
    [discriminate | congruence].
Qed.

Lemma suspicious_vpa_is_present_witness :
  exists f : list R,
    extract_features UrlLib.urlparse insertion_order
      "http://upi-prize.xyz/claim?vpa=refund@oksbi&amount=5000" = Ok f
    /\ feature "upi_vpa_present" f = 1%R.
Proof.
  destruct (suspicious_vpa_is_present UrlLib.urlparse insertion_order
              "http://upi-prize.xyz/claim?vpa=refund@oksbi&amount=5000")
    as [f (Hf & H)].
  exists f. split; [exact Hf |]. apply H.
  rewrite extract_features_ok in Hf. injection Hf as <-.
  entry. apply flag_1_iff. vm_compute. reflexivity.
Defined.

(** ** Exact brand matches *)

Lemma brand_distance_zero (domain : str) :
  brand_distance domain = 0 <-> In (lower (head_part "." domain)) BRANDS.
Proof.
  destruct (brand_distance_min domain) as [Hle [b [Hb Hd]]]. cbv zeta in *.
  split.
  - intros H. rewrite H in Hd. apply lev_zero_iff in Hd. now rewrite Hd.
  - intros H. specialize (Hle _ H).
    assert (lev (lower (head_part "." domain)) (lower (head_part "." domain)) = 0)
      by now apply lev_zero_iff.
    lia.
Qed.

Lemma norm_zero_iff (d : nat) : (INR (Nat.min d 10) / 10 = 0)%R <-> d = 0.
Proof.
  split.
  - intros H. assert (H0 : INR (Nat.min d 10) = 0%R) by lra.
    change 0%R with (INR 0) in H0. apply INR_eq in H0. lia.
  - intros ->. simpl. lra.
Qed.

(** X6. [brand_distance_norm] is 0 exactly when the lowercased first label
    of the registered domain is one of the brands, and then
    [brand_spoof_flag] is 0; when the flag is 1 the norm is 0.1 or 0.2. *)
Theorem brand_exact_match :
  forall (urlparse : str -> result ParseResult)
         (set_iter : forall A : Type, list A -> list A) (url : str),
    exists f : list R,
      extract_features urlparse set_iter url = Ok f
      /\ (feature "brand_distance_norm" f = 0%R <->
          In (lower (head_part "."
                (registered_domain (parse_url_parts urlparse url)))) BRANDS)
      /\ (feature "brand_distance_norm" f = 0%R ->
          feature "brand_spoof_flag" f = 0%R)
      /\ (feature "brand_spoof_flag" f = 1%R ->
          feature "brand_distance_norm" f = (1 / 10)%R
          \/ feature "brand_distance_norm" f = (2 / 10)%R).
Proof.
  intros urlparse set_iter url. eexists.
  split; [apply extract_features_ok |].
  split; [entry; rewrite norm_zero_iff; apply brand_distance_zero |].
  split.
  - entry. rewrite norm_zero_iff. intros ->. reflexivity.
  - entry. intros H. apply spoof_flag_iff in H.
    set (d := brand_distance _) in *.
    assert (Hd : d = 1 \/ d = 2) by lia.
    destruct Hd as [-> | ->]; simpl; [left | right]; lra.
Qed.

Lemma brand_exact_match_witness :
  exists f : list R,
    extract_features UrlLib.urlparse insertion_order "http://paypal.com" = Ok f
    /\ feature "brand_distance_norm" f = 0%R.
Proof.
  destruct (brand_exact_match UrlLib.urlparse insertion_order "http://paypal.com")
    as [f (Hf & H & _)].
  exists f. split; [exact Hf |]. apply H. vm_compute. auto 10.
Defined.

(** X7. [query_param_count] is 0 for an empty query and otherwise one more
    than the number of [&] in the query: empty segments count. *)
Theorem query_param_count_spec :
  forall (urlparse : str -> result ParseResult)
         (set_iter : forall A : Type, list A -> list A) (url : str),
    exists f : list R,
      extract_features urlparse set_iter url = Ok f
      /\ (query (parse_url_parts urlparse url) = [] ->
          feature "query_param_count" f = 0%R)
      /\ (query (parse_url_parts urlparse url) <> [] ->
          feature "query_param_count" f
          = INR (count_chr "&" (query (parse_url_parts urlparse url)) + 1)).
Proof.
  intros urlparse set_iter url. eexists.
  split; [apply extract_features_ok |]. split.
  - entry. intros ->. reflexivity.
  - entry. intros H. rewrite split_chr_length.
    destruct (query (parse_url_parts urlparse url)); [congruence | reflexivity].
Qed.

Lemma query_param_count_spec_witness :
  exists f : list R,
    extract_features UrlLib.urlparse insertion_order "http://a.b/c?x=1&&y" = Ok f
    /\ feature "query_param_count" f = 3%R.
Proof.
  destruct (query_param_count_spec UrlLib.urlparse insertion_order
              "http://a.b/c?x=1&&y") as [f (Hf & _ & H)].
  exists f. split; [exact Hf |]. rewrite H by (vm_compute; discriminate).
  vm_compute (count_chr _ _ + 1). simpl. lra.
Defined.

(** ** Keyword hits *)

Lemma count_if_pos {A : Type} (p : A -> bool) (l : list A) (x : A) :
  In x l -> p x = true -> 1 <= count_if p l.
Proof.
  intros Hin Hp. unfold count_if.
  assert (H : In x (filter p l)) by (apply filter_In; auto).
  destruct (filter p l); [contradiction | simpl; lia].
Qed.

Lemma any_in_hits (it : forall A : Type, list A -> list A)
    (p : str -> bool) (kws all : list str) :
  (forall (A : Type) (l : list A), Permutation (it A l) l) ->
  incl kws all ->
  any_in it p kws = true -> 1 <= hits_in it p all.
Proof.
  intros Hperm Hincl H. unfold any_in in H. apply existsb_exists in H.
  destruct H as [k [Hk Hp]]. unfold hits_in.
  apply count_if_pos with k; [| assumption].
  apply (Permutation_in k (Permutation_sym (Hperm str all))).
  apply Hincl. now apply (Permutation_in k (Hperm str kws)).
Qed.

Lemma incl_all_kw (kws : list str) :
  incl kws (login_kw ++ trust_kw ++ pay_kw ++ free_kw ++ fraud_kw) ->
  incl kws all_kw.
Proof. intros H k Hk. unfold all_kw, distinct_str. apply nodup_In. now apply H. Qed.

Lemma density_lower (h : nat) : 1 <= h -> (1 / 6 <= Rmin (INR h / 6) 1)%R.
Proof.
  intros H. apply le_INR in H. simpl in H. apply Rmin_glb; lra.
Qed.

(** X8. A URL flagged [has_login_kw], [has_payment_kw], [has_free_kw] or
    [has_fraud_kw] has a [keyword_density] of at least 1/6; a density of 0
    means none of the four flags is set. *)
Theorem keyword_density_flags :
  forall (urlparse : str -> result ParseResult)
         (set_iter : forall A : Type, list A -> list A),
    (forall (A : Type) (l : list A), Permutation (set_iter A l) l) ->
    forall url : str,
      exists f : list R,
        extract_features urlparse set_iter url = Ok f
        /\ forall name : string,
             In name ["has_login_kw"; "has_payment_kw"; "has_free_kw";
                      "has_fraud_kw"] ->
             (feature name f = 1%R -> (1 / 6 <= feature "keyword_density" f)%R)
             /\ (feature "keyword_density" f = 0%R -> feature name f = 0%R).
Proof.
  intros urlparse set_iter Hperm url. eexists.
  split; [apply extract_features_ok |].
  assert (Hall : forall kws,
            incl kws (login_kw ++ trust_kw ++ pay_kw ++ free_kw ++ fraud_kw) ->
            any_in set_iter (fun k => contains k (lower url)) kws = true ->
            (1 / 6 <= Rmin (INR (hits_in set_iter
                                   (fun k => contains k (lower url)) all_kw) / 6) 1)%R).
  { intros kws Hincl H. apply density_lower.
    apply (any_in_hits set_iter _ kws all_kw Hperm); [| assumption].
    now apply incl_all_kw. }
  assert (Hflag : forall b : bool, (b = true -> (1 / 6 <= feature "keyword_density"
              (feature_values urlparse set_iter url))%R) ->
            (flag b = 1%R -> (1 / 6 <= feature "keyword_density"
              (feature_values urlparse set_iter url))%R)
            /\ (feature "keyword_density" (feature_values urlparse set_iter url) = 0%R
                -> flag b = 0%R)).
  { intros b Hb. split.
    - intros H. now apply Hb, flag_1_iff.
    - intros H0. destruct b; [| reflexivity]. specialize (Hb eq_refl). lra. }
  intros name Hname. simpl in Hname.
  destruct Hname as [<-|[<-|[<-|[<-|[]]]]];
    match goal with
    | |- (feature ?n _ = 1%R -> _) /\ _ =>
        let k := eval vm_compute in (index_of n FEATURE_NAMES) in
        unfold feature at 1 4; change (index_of n FEATURE_NAMES) with k;
        unfold feature_values at 1 4; cbv zeta; cbn [nth]
    end;
    apply Hflag; intros H; entry; apply Hall with (2 := H);
    intros k Hk; repeat (apply in_or_app; first [left; exact Hk | right]);
    try exact Hk.
Qed.

Lemma keyword_density_flags_witness :
  exists f : list R,
    extract_features UrlLib.urlparse insertion_order "http://x.com/login" = Ok f
    /\ (1 / 6 <= feature "keyword_density" f)%R.
Proof.
  destruct (keyword_density_flags UrlLib.urlparse insertion_order
              insertion_order_perm "http://x.com/login") as [f [Hf H]].
  exists f. split; [exact Hf |].
  apply (H "has_login_kw"); [simpl; auto |].
  rewrite extract_features_ok in Hf. injection Hf as <-.
  entry. apply flag_1_iff. vm_compute. reflexivity.
Defined.

Close Scope string_scope.

Open Scope string_scope.

(** ** What the matches of a scan cover *)

Lemma match_here_length (r : regex) (prev : option ascii) (s m : str)
    (g : option str) :
  match_here r prev s = Some (m, g) -> length m <= length s.
Proof.
  unfold match_here.
  destruct (rmatch r prev s None _) as [[rest g']|]; [| discriminate].
  intros [= <- _]. rewrite length_firstn. lia.
Qed.

Lemma finditer_total_length (r : regex) :
  (forall prev s m g, match_here r prev s = Some (m, g) -> 1 <= length m) ->
  forall (s : str) (skip : nat) (prev : option ascii),
    total_length (finditer_from r skip prev s) <= length s - skip.
Proof.
  intros Hpos. induction s as [|c s IH]; intros skip prev.
  - destruct skip; cbn [finditer_from]; [| simpl; lia].
    destruct (match_here r prev []) as [[m g]|] eqn:E; [| simpl; lia].
    pose proof (Hpos _ _ _ _ E). pose proof (match_here_length _ _ _ _ _ E).
    simpl in *. lia.
  - destruct skip as [|k]; cbn [finditer_from].
    + destruct (match_here r prev (c :: s)) as [[m g]|] eqn:E.
      * pose proof (Hpos _ _ _ _ E). pose proof (match_here_length _ _ _ _ _ E).
        specialize (IH (length m - 1) (Some c)).
        cbn [total_length fold_right length] in *.
        fold (total_length (finditer_from r (length m - 1) (Some c) s)). lia.
      * specialize (IH 0 (Some c)). cbn [length]. lia.
    + specialize (IH k (Some c)). cbn [length]. lia.
Qed.

Lemma rep_hi_0 (cls : ascii -> bool) (lo : nat) (prev : option ascii)
    (s : str) (g : option str) (k : cont) :
  rep cls lo (Some 0) prev s g k = if (lo =? 0)%nat then k prev s g else None.
Proof. destruct s; reflexivity. Qed.

Lemma pct_match_length (prev : option ascii) (s m : str) (g : option str) :
  match_here pct_re prev s = Some (m, g) -> length m = 3.
Proof.
  unfold match_here, pct_re. cbn [rmatch].
  destruct s as [|c s]; [discriminate |].
  destruct s as [|x s]; [destruct (one "%" c); discriminate |].
  destruct s as [|y s]; cbn [rep Nat.eqb Nat.sub option_map pred or_else].
  - destruct (one "%" c); [| discriminate].
    destruct (is_hex x); discriminate.
  - destruct (one "%" c); [| discriminate].
    destruct (is_hex x); [| discriminate].
    destruct (is_hex y); cbn [or_else]; [| discriminate].
    rewrite rep_hi_0. cbn [Nat.eqb or_else].
    intros H. injection H as <- _.
    change (length (firstn (length (c :: x :: y :: s) - length s)
                      (c :: x :: y :: s)) = 3).
    rewrite length_firstn. cbn [length]. lia.
Qed.

Lemma total_length_const (ms : list str) (k : nat) :
  Forall (fun m => length m = k) ms -> total_length ms = k * length ms.
Proof.
  induction 1 as [|m ms Hm H IH]; simpl; [lia |].
  fold (total_length ms). rewrite IH, Hm. lia.
Qed.

Lemma finditer_from_all (r : regex) (P : str -> Prop) :
  (forall prev s m g, match_here r prev s = Some (m, g) -> P m) ->
  forall s skip prev, Forall P (finditer_from r skip prev s).
Proof.
  intros H s skip prev. apply Forall_forall. intros m Hm.
  apply finditer_from_in in Hm. destruct Hm as (p' & pre & s' & g & _ & E).
  eapply H. eassumption.
Qed.

Lemma pct_count_third (url : str) :
  3 * length (re_finditer pct_re url) <= length url.
Proof.
  unfold re_finditer.
  rewrite <- (total_length_const _ 3)
    by (apply finditer_from_all; intros; eapply pct_match_length; eassumption).
  pose proof (finditer_total_length pct_re) as H.
  specialize (H (fun prev s m g E =>
                   eq_ind_r (fun n => 1 <= n) (le_S _ _ (le_S _ _ (le_n 1)))
                            (pct_match_length prev s m g E)) url 0 None).
  lia.
Qed.

Lemma heavy_triple (n len : nat) :
  3 * n <= len ->
  (Rmin (INR n / Rmax (INR len / 3) 1) 1 = 3 * (INR n / INR (Nat.max len 1))
   /\ INR n / INR (Nat.max len 1) <= 1 / 3)%R.
Proof.
  intros H3.
  assert (Hn : (3 * INR n <= INR len)%R).
  { apply le_INR in H3. rewrite mult_INR in H3. simpl in H3. lra. }
  pose proof (pos_INR n) as Hn0.
  destruct (Nat.le_gt_cases 3 len) as [Hlen|Hlen].
  - assert (Hl : (3 <= INR len)%R).
    { apply le_INR in Hlen. simpl in Hlen. lra. }
    replace (Nat.max len 1) with len by lia.
    rewrite Rmax_left by lra.
    assert (Hq : (INR n / (INR len / 3) = 3 * (INR n / INR len))%R)
      by (field; lra).
    assert (Hle : (3 * (INR n / INR len) <= 1)%R).
    { apply Rmult_le_reg_r with (INR len); [lra |].
      replace (3 * (INR n / INR len) * INR len)%R with (3 * INR n)%R
        by (field; lra).
      lra. }
    rewrite Hq. split; [apply Rmin_left; exact Hle | lra].
  - assert (Hz : n = 0) by lia. subst n. simpl INR at 1 2 3.
    unfold Rdiv at 1 3 4. rewrite !Rmult_0_l, Rmult_0_r.
    split; [apply Rmin_left; lra | lra].
Qed.

(** X9. [heavy_encoding] is three times [pct_encoding_ratio] for every URL,
    and the ratio never exceeds 1/3: a percent triplet takes three
    characters of the URL. *)
Theorem heavy_encoding_is_triple :
  forall (urlparse : str -> result ParseResult)
         (set_iter : forall A : Type, list A -> list A) (url : str),
    exists f : list R,
      extract_features urlparse set_iter url = Ok f
      /\ feature "heavy_encoding" f = (3 * feature "pct_encoding_ratio" f)%R
      /\ (feature "pct_encoding_ratio" f <= 1 / 3)%R.
Proof.
  intros urlparse set_iter url. eexists.
  split; [apply extract_features_ok |].
  destruct (heavy_triple _ _ (pct_count_third url)) as [H1 H2].
  split; [do 2 entry; exact H1 | entry; exact H2].
Qed.

Close Scope string_scope.

(** ** Consonant runs *)

Lemma fold_left_pointwise {A B : Type} (f g : A -> B -> A) (l : list B) (a : A) :
  (forall x y, f x y = g x y) -> fold_left f l a = fold_left g l a.
Proof.
  intros H. revert a. induction l as [|y l IH]; intros a; simpl; [reflexivity |].
  now rewrite H, IH.
Qed.

Lemma max_consecutive_consonants_fold (s : str) :
  max_consecutive_consonants s = fst (fold_left consonant_step (lower s) (0, 0)).
Proof.
  unfold max_consecutive_consonants. f_equal.
  apply fold_left_pointwise. intros [m cur] c. reflexivity.
Qed.

Lemma consonant_fold_ge (l : str) (m cur : nat) :
  m <= fst (fold_left consonant_step l (m, cur)).
Proof.
  revert m cur. induction l as [|c l IH]; intros m cur; simpl; [lia |].
  destruct (is_consonant c).
  - specialize (IH (Nat.max m (cur + 1)) (cur + 1)). lia.
  - apply IH.
Qed.


(** With [cur] the length of the run that ends where the loop stands. *)
Lemma consonant_fold_run (run post : str) (m cur : nat) :
  cur <= m ->
  forallb is_consonant run = true ->
  cur + length run <= fst (fold_left consonant_step (run ++ post) (m, cur)).
Proof.
  revert m cur. induction run as [|c run IH]; intros m cur Hc H; simpl.
  - pose proof (consonant_fold_ge post m cur). lia.
  - simpl in H. apply andb_true_iff in H. destruct H as [Hcc Hr].
    rewrite Hcc. specialize (IH (Nat.max m (cur + 1)) (cur + 1)).
    assert (cur + 1 <= Nat.max m (cur + 1)) by lia.
    specialize (IH H Hr). lia.
Qed.

Lemma consonant_fold_upper (pre run post : str) :
  forall m cur : nat,
    cur <= m ->
    forallb is_consonant run = true ->
    length run <= fst (fold_left consonant_step (pre ++ run ++ post) (m, cur)).
Proof.
  induction pre as [|c pre IH]; intros m cur Hc H.
  - pose proof (consonant_fold_run run post m cur Hc H). simpl. lia.
  - simpl. destruct (is_consonant c); apply IH; auto; lia.
Qed.

Lemma consonant_fold_reached (l : str) :
  forall m cur : nat,
    let r := fst (fold_left consonant_step l (m, cur)) in
    r = m
    \/ exists pre run post,
         l = pre ++ run ++ post /\ forallb is_consonant run = true
         /\ (length run = r \/ (pre = [] /\ cur + length run = r)).
Proof.
  induction l as [|c l IH]; intros m cur; cbn zeta.
  - left. reflexivity.
  - simpl. destruct (is_consonant c) eqn:Ec.
    + destruct (IH (Nat.max m (cur + 1)) (cur + 1))
        as [E|(pre & run & post & -> & Hr & [E|[-> E]])]; cbn zeta in *.
      * destruct (Nat.max_spec m (cur + 1)) as [[_ E']|[_ E']].
        -- right. exists [], [c], l. simpl. rewrite Ec.
           repeat split; auto. right. split; [reflexivity | lia].
        -- left. lia.
      * right. exists (c :: pre), run, post. repeat split; auto.
      * right. exists [], (c :: run), post. simpl. rewrite Ec.
        repeat split; auto. right. split; [reflexivity | simpl in *; lia].
    + destruct (IH m 0) as [E|(pre & run & post & -> & Hr & [E|[-> E]])];
        cbn zeta in *.
      * left. exact E.
      * right. exists (c :: pre), run, post. repeat split; auto.
      * right. exists [c], run, post. repeat split; auto.
Qed.

(** X10. [max_consecutive_consonants] is the length of a longest block of
    consecutive consonants (letters other than a, e, i, o, u) of the
    lowercased string: some block has that length and none is longer. It
    is at most the length of the string. *)
Theorem max_consecutive_consonants_spec :
  forall s : str,
    (exists pre run post,
       lower s = (pre ++ run ++ post)%list
       /\ forallb is_consonant run = true
       /\ length run = max_consecutive_consonants s)
    /\ (forall pre run post,
          lower s = (pre ++ run ++ post)%list ->
          forallb is_consonant run = true ->
          length run <= max_consecutive_consonants s)
    /\ max_consecutive_consonants s <= length s.
Proof.
  intros s. rewrite max_consecutive_consonants_fold.
  assert (Hex : exists pre run post,
             lower s = (pre ++ run ++ post)%list
             /\ forallb is_consonant run = true
             /\ length run = fst (fold_left consonant_step (lower s) (0, 0))).
  { destruct (consonant_fold_reached (lower s) 0 0)
      as [E|(pre & run & post & E & Hr & [El|[_ El]])]; cbn zeta in *.
    - exists [], [], (lower s). rewrite E. auto.
    - exists pre, run, post. auto.
    - exists pre, run, post. auto. }
  split; [exact Hex |]. split.
  - intros pre run post E H. rewrite E. now apply consonant_fold_upper.
  - destruct Hex as (pre & run & post & E & _ & <-).
    apply (f_equal (@length ascii)) in E.
    unfold lower in E. rewrite length_map, !length_app in E. lia.
Qed.

Lemma max_consecutive_consonants_spec_witness :
  4 <= max_consecutive_consonants (list_ascii_of_string "Strength").
Proof.
  apply (proj1 (proj2 (max_consecutive_consonants_spec
                         (list_ascii_of_string "Strength")))
           ["s"; "t"; "r"; "e"]%char ["n"; "g"; "t"; "h"]%char []).
  - reflexivity.
  - reflexivity.
Defined.

(** ** When a repetition succeeds *)

Lemma rep_complete (cls : ascii -> bool) (k : cont) (g : option str) (s' : str) :
  (forall p, k p s' g <> None) ->
  forall (pre : str) (lo : nat) (prev : option ascii),
    forallb cls pre = true -> lo <= length pre ->
    rep cls lo None prev (pre ++ s') g k <> None.
Proof.
  intros Hk. induction pre as [|c pre IH]; intros lo prev Hall Hlo.
  - simpl in Hlo. assert (lo = 0) by lia. subst lo. simpl app.
    destruct s' as [|c s'']; cbn [rep Nat.eqb]; [apply Hk |].
    destruct (cls c); [| apply Hk].
    destruct (rep cls (0 - 1) (option_map pred None) (Some c) s'' g k);
      [discriminate | apply Hk].
  - simpl in Hall. apply andb_true_iff in Hall. destruct Hall as [Hc Hall].
    cbn [app rep]. rewrite Hc. cbn [option_map].
    specialize (IH (lo - 1) (Some c) Hall).
    destruct (rep cls (lo - 1) None (Some c) (pre ++ s') g k);
      [discriminate |].
    exfalso. apply IH; [simpl in Hlo; lia | reflexivity].
Qed.

Lemma search_from_found (r : regex) (s' : str) :
  (forall prev, match_here r prev s' <> None) ->
  forall (pre : str) (prev : option ascii),
    found (search_from r prev (pre ++ s')) = true.
Proof.
  intros H. induction pre as [|c pre IH]; intros prev.
  - simpl app. specialize (H prev).
    destruct s'; cbn [search_from]; destruct (match_here r prev _);
      try reflexivity; congruence.
  - cbn [app search_from].
    destruct (match_here r prev (c :: pre ++ s')); [reflexivity | apply IH].
Qed.

Lemma search_from_in (r : regex) (m : str) (g : option str) :
  forall (s : str) (prev : option ascii),
    search_from r prev s = Some (m, g) ->
    exists prev' pre s', s = pre ++ s' /\ match_here r prev' s' = Some (m, g).
Proof.
  induction s as [|c s IH]; intros prev H; cbn [search_from] in H.
  - destruct (match_here r prev []) as [x|] eqn:E; [| discriminate].
    injection H as ->. exists prev, [], []. auto.
  - destruct (match_here r prev (c :: s)) as [x|] eqn:E.
    + injection H as ->. exists prev, [], (c :: s). auto.
    + destruct (IH _ H) as (p' & pre & s' & -> & Hm).
      exists p', (c :: pre), s'. auto.
Qed.

Lemma upi_match_complete (local handle post : str) (prev : option ascii) :
  local <> [] -> forallb upi_local local = true ->
  handle <> [] -> forallb is_alpha_ascii handle = true ->
  match_here upi_re prev (local ++ "@"%char :: handle ++ post) <> None.
Proof.
  intros Hl Hla Hh Hha. unfold match_here.
  assert (H : rmatch upi_re prev (local ++ "@"%char :: handle ++ post) None
                (fun _ s' g' => Some (s', g')) <> None).
  { unfold upi_re, plus. cbn [rmatch]. apply rep_complete; auto.
    - intros p. cbn [one]. change (chr_eqb "@" "@") with true. cbv iota.
      apply rep_complete; auto.
      + discriminate.
      + destruct handle; [congruence | simpl; lia].
    - destruct local; [congruence | simpl; lia]. }
  destruct (rmatch upi_re prev _ None _) as [[rest g]|]; [discriminate | congruence].
Qed.


(** X11. [upi_vpa_present] is 1 exactly when the URL holds a payment
    address: somewhere in it a non-empty run of letters, digits, [.], [_]
    and [-], then [@], then a non-empty run of letters. *)
Theorem upi_vpa_present_spec :
  forall (urlparse : str -> result ParseResult)
         (set_iter : forall A : Type, list A -> list A) (url : str),
    exists f : list R,
      extract_features urlparse set_iter url = Ok f
      /\ (feature "upi_vpa_present" f = 1%R <-> holds_vpa url)
      /\ (feature "upi_vpa_present" f = 0%R <-> ~ holds_vpa url).
Proof.
  intros urlparse set_iter url. eexists.
  split; [apply extract_features_ok |].
  assert (H : found (re_search upi_re url) = true <-> holds_vpa url).
  { split.
    - unfold re_search. destruct (search_from upi_re None url) as [[m g]|] eqn:E;
        [intros _ | discriminate].
      apply search_from_in in E. destruct E as (p' & pre & s' & -> & E).
      apply upi_match_here in E.
      destruct E as (l & h & rest & (-> & Hl & Hla & Hh & Hha) & ->).
      exists pre, l, h, rest. rewrite <- !app_assoc. simpl. auto.
    - intros (pre & l & h & post & -> & Hl & Hla & Hh & Hha).
      apply search_from_found. intros prev. now apply upi_match_complete. }
  split; [entry; rewrite flag_1_iff; exact H |].
  entry. rewrite flag_0_iff, <- H.
  destruct (found (re_search upi_re url)); split; congruence.
Qed.

(** ** Numeric hosts *)

Lemma numeric_chr_facts (c : ascii) :
  numeric_chr c = true ->
  is_consonant (lower_chr c) = false
  /\ chr_in c (list_ascii_of_string "aeiou") = false.
Proof.
  destruct c as [[] [] [] [] [] [] [] []]; intros H;
    try discriminate H; split; reflexivity.
Qed.

Lemma fullmatch_numeric (h : str) :
  re_fullmatch numeric_re h = true <-> h <> [] /\ forallb numeric_chr h = true.
Proof.
  unfold re_fullmatch, numeric_re, plus. cbn [rmatch]. fold numeric_chr. split.
  - destruct (rep numeric_chr 1 None None h None _) as [out|] eqn:E;
      [intros _ | discriminate].
    apply rep_inv in E. destruct E as (pre & s' & p' & -> & Hall & Hlo & Hk).
    destruct s'; [| discriminate]. rewrite app_nil_r. split; [| assumption].
    intros ->. simpl in Hlo. lia.
  - intros [Hne Hall].
    pose proof (rep_complete numeric_chr
                  (fun _ s' g => match s' with [] => Some (s', g) | _ => None end)
                  None [] (fun _ => ltac:(discriminate)) h 1 None Hall) as H.
    rewrite app_nil_r in H.
    destruct (rep numeric_chr 1 None None h None _); [reflexivity |].
    exfalso. apply H; [destruct h; [congruence | simpl; lia] | reflexivity].
Qed.

Lemma count_if_none {A : Type} (p : A -> bool) (l : list A) :
  (forall x, In x l -> p x = false) -> count_if p l = 0.
Proof.
  intros H. unfold count_if. induction l as [|x l IH]; [reflexivity |].
  simpl. rewrite (H x) by now left. apply IH. intros y Hy. apply H. now right.
Qed.

Lemma no_consonant_run (s : str) :
  (forall c, In c (lower s) -> is_consonant c = false) ->
  max_consecutive_consonants s = 0.
Proof.
  intros H. rewrite max_consecutive_consonants_fold.
  destruct (consonant_fold_reached (lower s) 0 0)
    as [E|(pre & run & post & E & Hr & Hlen)]; cbn zeta in *; [exact E |].
  destruct run as [|c run].
  - destruct Hlen as [<-|[_ <-]]; reflexivity.
  - simpl in Hr. apply andb_true_iff in Hr. destruct Hr as [Hc _].
    rewrite H in Hc; [discriminate |].
    rewrite E. apply in_or_app. right. now left.
Qed.

(** X12. [numeric_domain] is 1 exactly when the host is non-empty and made
    of decimal digits and dots only; such a host has a [vowel_ratio] of 0
    and a [max_consonant_run] of 0. *)
Theorem numeric_domain_spec :
  forall (urlparse : str -> result ParseResult)
         (set_iter : forall A : Type, list A -> list A) (url : str),
    exists f : list R,
      extract_features urlparse set_iter url = Ok f
      /\ (feature "numeric_domain" f = 1%R <->
          host (parse_url_parts urlparse url) <> []
          /\ forallb (fun c => is_decimal c || chr_eqb c ".")
               (host (parse_url_parts urlparse url)) = true)
      /\ (feature "numeric_domain" f = 1%R ->
          feature "vowel_ratio" f = 0%R
          /\ feature "max_consonant_run" f = 0%R).
Proof.
  intros urlparse set_iter url. eexists.
  split; [apply extract_features_ok |].
  split; [entry; rewrite flag_1_iff; apply fullmatch_numeric |].
  set (h := host (parse_url_parts urlparse url)).
  assert (Hnum : re_fullmatch numeric_re h = true ->
                 count_if (fun c => chr_in c (list_ascii_of_string "aeiou")) h = 0
                 /\ max_consecutive_consonants h = 0).
  { intros H. apply fullmatch_numeric in H. destruct H as [_ Hall].
    rewrite forallb_forall in Hall. split.
    - apply count_if_none. intros c Hc. now apply numeric_chr_facts, Hall.
    - apply no_consonant_run. intros c Hc. unfold lower in Hc.
      apply in_map_iff in Hc. destruct Hc as [x [<- Hx]].
      now apply numeric_chr_facts, Hall. }
  entry. intros H. apply flag_1_iff in H. fold h in H.
  destruct (Hnum H) as [Hv Hc]. split.
  - entry. fold h. rewrite Hv. simpl INR. unfold Rdiv. apply Rmult_0_l.
  - entry. fold h. rewrite Hc. reflexivity.
Qed.

Lemma numeric_domain_spec_witness :
  exists f : list R,
    extract_features UrlLib.urlparse insertion_order
      (list_ascii_of_string "http://192.168.1.1/admin") = Ok f
    /\ feature "vowel_ratio" f = 0%R.
Proof.
  destruct (numeric_domain_spec UrlLib.urlparse insertion_order
              (list_ascii_of_string "http://192.168.1.1/admin"))
    as [f (Hf & Hiff & H)].
  exists f. split; [exact Hf |].
  assert (Hn : feature "numeric_domain" f = 1%R).
  { apply (proj2 Hiff).
    split; [vm_compute; discriminate | vm_compute; reflexivity]. }
  exact (proj1 (H Hn)).
Defined.

(** ** The training data *)

Lemma combine_snd_firstn {A B : Type} (l : list A) (l' : list B) :
  map snd (combine l l') = firstn (length l) l'.
Proof.
  revert l'. induction l as [|x l IH]; intros [|y l']; simpl; try reflexivity.
  now rewrite IH.
Qed.

Lemma combine_fst_firstn {A B : Type} (l : list A) (l' : list B) :
  map fst (combine l l') = firstn (length l') l.
Proof.
  revert l'. induction l as [|x l IH]; intros [|y l']; simpl; try reflexivity.
  now rewrite IH.
Qed.

Section TrainFacts.

Variable urlparse : str -> result ParseResult.
Variable set_iter : forall A : Type, list A -> list A.
Variable label : Type.
Variable int_ : label -> result Z.

Lemma extract_all_fold (ps : list (str * label)) :
  forall (X : list (list R)) (y : list Z) (k : nat),
    fold_left
      (fun '(X, y, skipped) '(url, l) =>
         match (feats <- extract_features urlparse set_iter (strip url) ;;
                if length feats =? N_FEATURES then Ok feats
                else Raise AssertionError) with
         | Ok feats =>
             match int_ l with
             | Ok z => (X ++ [feats], y ++ [z], skipped)
             | Raise _ => (X ++ [feats], y, skipped + 1)
             end
         | Raise _ => (X, y, skipped + 1)
         end) ps (X, y, k)
    = (X ++ map (fun p => feature_values urlparse set_iter (strip (fst p))) ps,
       y ++ accepted int_ (map snd ps),
       k + rejected int_ (map snd ps)).
Proof.
  induction ps as [|[u l] ps IH]; intros X y k.
  - simpl. rewrite !app_nil_r. f_equal. unfold rejected. simpl. lia.
  - cbn [fold_left]. rewrite extract_features_ok. cbn [bind].
    change (length (feature_values urlparse set_iter (strip u)) =? N_FEATURES)
      with true.
    cbv iota. unfold accepted, rejected in *. cbn [map fst snd flat_map filter].
    destruct (int_ l) as [z|e]; rewrite IH, <- !app_assoc; cbn [app length];
      f_equal; lia.
Qed.

Lemma extract_all_loop_eq (urls : list str) (labels : list label) :
  extract_all_loop urlparse set_iter label int_ urls labels
  = (map (fun p => feature_values urlparse set_iter (strip (fst p)))
         (combine urls labels),
     accepted int_ (firstn (length urls) labels),
     rejected int_ (firstn (length urls) labels)).
Proof.
  unfold extract_all_loop. rewrite extract_all_fold. simpl.
  now rewrite combine_snd_firstn.
Qed.

Lemma accepted_rejected (ls : list label) :
  length ls = length (accepted int_ ls) + rejected int_ ls.
Proof.
  unfold accepted, rejected. induction ls as [|l ls IH]; [reflexivity |].
  cbn [flat_map filter]. destruct (int_ l); cbn [app length]; lia.
Qed.

Lemma rejected_pos (ls : list label) (l : label) :
  In l ls -> (exists e, int_ l = Raise e) -> 0 < rejected int_ ls.
Proof.
  intros Hin [e He]. unfold rejected.
  assert (H : In l (filter (fun l => match int_ l with
                                     | Ok _ => false
                                     | Raise _ => true
                                     end) ls)).
  { apply filter_In. split; [assumption |]. now rewrite He. }
  destruct (filter _ ls); [destruct H | simpl; lia].
Qed.

Lemma accepted_all (ls : list label) :
  (forall l, In l ls -> exists z, int_ l = Ok z) ->
  rejected int_ ls = 0 /\ map int_ ls = map (@Ok Z) (accepted int_ ls).
Proof.
  unfold accepted, rejected. induction ls as [|l ls IH]; intros H.
  - split; reflexivity.
  - destruct IH as [IH1 IH2]; [intros l' Hl'; apply H; now right |].
    destruct (H l) as [z Hz]; [now left |].
    cbn [flat_map filter map]. rewrite Hz. cbn [app map].
    split; [assumption | now rewrite IH2].
Qed.

End TrainFacts.

(** X13. [extract_features] never makes [extract_all] skip a URL: each pair
    that [zip] makes of the URLs and the labels adds its row of 56 features
    (of the stripped URL) to [X]. The [except] branch is entered only when
    [int] rejects a label, and then the row is already in [X]: [y] holds the
    labels [int] accepted, in order, [skipped] counts the rejected ones, and
    [X] is longer than [y] by [skipped]. When [int] accepts every label
    nothing is skipped and [y] has an entry for every row; as soon as it
    rejects one, [y] is shorter than [X]. *)
Theorem extract_all_rows :
  forall (urlparse : str -> result ParseResult)
         (set_iter : forall A : Type, list A -> list A)
         (label : Type) (int_ : label -> result Z)
         (urls : list str) (labels : list label),
    let zipped := firstn (length urls) labels in
    exists (X : list (list R)) (y : list Z) (skipped : nat),
      extract_all_loop urlparse set_iter label int_ urls labels = (X, y, skipped)
      /\ extract_all urlparse set_iter label int_ urls labels = (X, y)
      /\ length X = Nat.min (length urls) (length labels)
      /\ (forall row, In row X -> length row = N_FEATURES)
      /\ (forall i u, nth_error urls i = Some u -> i < length labels ->
            extract_features urlparse set_iter (strip u)
            = Ok (nth i X []))
      /\ y = accepted int_ zipped
      /\ skipped = rejected int_ zipped
      /\ length X = length y + skipped
      /\ ((forall l, In l zipped -> exists z, int_ l = Ok z) ->
          skipped = 0 /\ length y = length X
          /\ map int_ zipped = map (@Ok Z) y)
      /\ (forall l, In l zipped -> (exists e, int_ l = Raise e) ->
          length y < length X).
Proof.
  intros urlparse set_iter label int_ urls labels zipped.
  pose proof (accepted_rejected label int_ zipped) as Hsum.
  assert (Hz : length zipped = Nat.min (length urls) (length labels))
    by (unfold zipped; rewrite length_firstn; reflexivity).
  assert (HX : length (map (fun p => feature_values urlparse set_iter
                                       (strip (fst p)))
                         (combine urls labels))
               = Nat.min (length urls) (length labels))
    by (rewrite length_map, length_combine; reflexivity).
  eexists. eexists. eexists. split; [apply extract_all_loop_eq |].
  split; [unfold extract_all; rewrite extract_all_loop_eq; reflexivity |].
  split; [exact HX |].
  split.
  { intros row H. apply in_map_iff in H. destruct H as [p [<- _]]. reflexivity. }
  split.
  { intros i u Hu Hi. rewrite extract_features_ok. f_equal.
    clear Hsum Hz HX. clear zipped.
    revert i labels Hu Hi. induction urls as [|u0 urls IH]; intros i labels Hu Hi.
    - destruct i; discriminate.
    - destruct labels as [|l labels]; [simpl in Hi; lia |].
      destruct i as [|i]; simpl in *.
      + now injection Hu as ->.
      + apply IH; [assumption | lia]. }
  split; [reflexivity |]. split; [reflexivity |].
  fold zipped. split; [lia |]. split.
  - intros H. destruct (accepted_all label int_ zipped H) as [H0 Hm].
    split; [assumption |]. split; [lia | assumption].
  - intros l Hin He. pose proof (rejected_pos label int_ zipped l Hin He). lia.
Qed.

Lemma extract_all_rows_witness :
  exists (X : list (list R)),
    extract_all UrlLib.urlparse insertion_order csv_label int_of_label
      [list_ascii_of_string " http://a.b "; list_ascii_of_string "not a url"]
      [NaNLabel; IntLabel 0] = (X, [0%Z])
    /\ length X = 2
    /\ extract_features UrlLib.urlparse insertion_order
         (list_ascii_of_string "http://a.b") = Ok (nth 0 X []).
Proof.
  destruct (extract_all_rows UrlLib.urlparse insertion_order
              csv_label int_of_label
              [list_ascii_of_string " http://a.b "; list_ascii_of_string "not a url"]
              [NaNLabel; IntLabel 0])
    as (X & y & k & _ & H & Hlen & _ & Hrow & Hy & _).
  exists X. split; [rewrite H, Hy; reflexivity |]. split; [exact Hlen |].
  apply (Hrow 0 (list_ascii_of_string " http://a.b ")); [reflexivity | simpl; lia].
Defined.

(** ** Deduplication *)

Lemma str_in_iff (u : str) (l : list str) : str_in u l = true <-> In u l.
Proof.
  unfold str_in. rewrite existsb_exists. split.
  - intros [x [Hx E]]. destruct (str_eqb_spec u x); [now subst | discriminate].
  - intros H. exists u. split; [assumption |].
    destruct (str_eqb_spec u u); [reflexivity | congruence].
Qed.

Lemma combine_snoc {A B : Type} (l : list A) (l' : list B) (x : A) (y : B) :
  length l = length l' -> combine (l ++ [x]) (l' ++ [y]) = combine l l' ++ [(x, y)].
Proof.
  revert l'. induction l as [|a l IH]; intros [|b l'] H; simpl in *;
    try discriminate; [reflexivity |].
  rewrite IH by lia. reflexivity.
Qed.

Lemma dedup_inv_step (done : list (str * Z)) (st : list str * list str * list Z)
    (p : str * Z) :
  dedup_inv done st -> dedup_inv (done ++ [p]) (dedup_step st p).
Proof.
  destruct st as [[seen us] ls]. destruct p as [u l].
  intros (Hnd & Hlen & Hseen & Hin & Hfirst). unfold dedup_step.
  destruct (str_in u seen) eqn:E.
  - apply str_in_iff in E.
    split; [exact Hnd |]. split; [exact Hlen |]. split; [exact Hseen |].
    split.
    + intros u'. rewrite map_app, in_app_iff. split.
      * intros H. left. now apply Hin.
      * intros [H|[<-|[]]]; [now apply Hin | now apply Hseen].
    + intros u' l' H. destruct (Hfirst u' l' H) as (pre & post & -> & Hn).
      exists pre, (post ++ [(u, l)]). rewrite <- app_assoc. auto.
  - assert (Hnot : ~ In u us).
    { intros H. apply Hseen, str_in_iff in H. congruence. }
    split.
    { apply NoDup_app; repeat split; auto.
      - repeat constructor. intros [].
      - intros a Ha [<-|[]]. contradiction. }
    split; [rewrite !length_app; simpl; lia |].
    split.
    { intros u'. rewrite in_app_iff. simpl. rewrite (Hseen u'). tauto. }
    split.
    { intros u'. rewrite map_app, !in_app_iff. simpl. rewrite (Hin u'). tauto. }
    intros u' l' H. rewrite combine_snoc in H by assumption.
    apply in_app_or in H. destruct H as [H|[[= <- <-]|[]]].
    + destruct (Hfirst u' l' H) as (pre & post & -> & Hn).
      exists pre, (post ++ [(u, l)]). rewrite <- app_assoc. auto.
    + exists done, []. split; [reflexivity |].
      intros H. apply Hnot, Hin, H.
Qed.

Lemma dedup_inv_fold (rest : list (str * Z)) :
  forall done st,
    dedup_inv done st -> dedup_inv (done ++ rest) (fold_left dedup_step rest st).
Proof.
  induction rest as [|p rest IH]; intros done st H; simpl.
  - now rewrite app_nil_r.
  - replace (done ++ p :: rest) with ((done ++ [p]) ++ rest)
      by (rewrite <- app_assoc; reflexivity).
    apply IH, dedup_inv_step, H.
Qed.

Lemma deduplicate_fold (all_urls : list str) (all_labels : list Z) :
  deduplicate all_urls all_labels
  = (snd (fst (fold_left dedup_step (combine all_urls all_labels) ([], [], []))),
     snd (fold_left dedup_step (combine all_urls all_labels) ([], [], []))).
Proof.
  unfold deduplicate.
  rewrite (fold_left_pointwise _ dedup_step) by (intros [[a b] c] [u l]; reflexivity).
  destruct (fold_left dedup_step _ _) as [[seen us] ls]. reflexivity.
Qed.

Lemma dedup_fold_nodup (rest : list (str * Z)) :
  forall seen us ls,
    (forall u, In u seen <-> In u us) ->
    NoDup (us ++ map fst rest) ->
    fold_left dedup_step rest (seen, us, ls)
    = (rev (map fst rest) ++ seen, us ++ map fst rest, ls ++ map snd rest).
Proof.
  induction rest as [|[u l] rest IH]; intros seen us ls Hseen Hnd; simpl.
  - now rewrite !app_nil_r.
  - assert (Hnot : ~ In u us).
    { intros H. apply NoDup_remove_2 in Hnd. apply Hnd, in_or_app. now left. }
    destruct (str_in u seen) eqn:E;
      [apply str_in_iff, Hseen in E; contradiction |].
    rewrite IH.
    + rewrite <- !app_assoc. reflexivity.
    + intros x. simpl. rewrite in_app_iff, Hseen. simpl. tauto.
    + rewrite <- app_assoc. exact Hnd.
Qed.

(** X14. The deduplication of [build_dataset] keeps each URL once, with the
    label of its first occurrence: the URLs kept are pairwise distinct and
    are those of the input pairs, and each is kept with the label of the
    first pair that holds it. URLs that are already distinct pass through
    unchanged. *)
Theorem deduplicate_spec :
  forall (all_urls : list str) (all_labels : list Z),
    let pairs := combine all_urls all_labels in
    let '(urls_dedup, labels_dedup) := deduplicate all_urls all_labels in
    NoDup urls_dedup
    /\ length urls_dedup = length labels_dedup
    /\ (forall u, In u urls_dedup <-> In u (map fst pairs))
    /\ (forall u l, In (u, l) (combine urls_dedup labels_dedup) ->
          exists pre post,
            pairs = pre ++ (u, l) :: post /\ ~ In u (map fst pre))
    /\ (NoDup all_urls -> length all_urls = length all_labels ->
        urls_dedup = all_urls /\ labels_dedup = all_labels).
Proof.
  intros all_urls all_labels pairs. rewrite deduplicate_fold. fold pairs.
  assert (H0 : dedup_inv [] ([], [], [])).
  { simpl. split; [constructor |]. split; [reflexivity |].
    split; [tauto |]. split; [tauto |]. intros u l []. }
  pose proof (dedup_inv_fold pairs [] _ H0) as H. simpl app in H.
  assert (Hid : NoDup all_urls -> length all_urls = length all_labels ->
                fold_left dedup_step pairs ([], [], [])
                = (rev (map fst pairs) ++ [], all_urls, all_labels)).
  { intros Hnd Hlen. rewrite dedup_fold_nodup.
    - simpl. unfold pairs. rewrite combine_fst_firstn, combine_snd_firstn.
      rewrite (firstn_all2 all_urls), (firstn_all2 all_labels) by lia.
      reflexivity.
    - tauto.
    - simpl. unfold pairs. rewrite combine_fst_firstn.
      rewrite (firstn_all2 all_urls) by lia. exact Hnd. }
  destruct (fold_left dedup_step pairs ([], [], [])) as [[seen us] ls].
  cbn [fst snd]. destruct H as (Hnd & Hlen & _ & Hin & Hfirst).
  split; [exact Hnd |]. split; [exact Hlen |]. split; [exact Hin |].
  split; [exact Hfirst |].
  intros Hn Hl. specialize (Hid Hn Hl). injection Hid as _ -> ->.
  split; reflexivity.
Qed.

Lemma deduplicate_spec_witness :
  deduplicate
    [list_ascii_of_string "a"; list_ascii_of_string "b"] [1%Z; 0%Z]
  = ([list_ascii_of_string "a"; list_ascii_of_string "b"], [1%Z; 0%Z]).
Proof.
  pose proof (deduplicate_spec
                [list_ascii_of_string "a"; list_ascii_of_string "b"]
                [1%Z; 0%Z]) as H.
  cbv zeta in H.
  destruct (deduplicate _ _) as [us ls].
  destruct H as (_ & _ & _ & _ & H).
  destruct H as [-> ->]; [| reflexivity | reflexivity].
  repeat constructor; simpl; intuition discriminate.
Defined.

(** ** When the entropy vanishes *)

Open Scope R_scope.

Lemma plogp_neg (n f : nat) : (1 <= f < n)%nat -> plogp n f < 0.
Proof.
  intros [Hf Hn]. unfold plogp, log2_R.
  pose proof (INR_pos f Hf) as Hpf.
  assert (Hpn : 0 < INR n) by (apply INR_pos; lia).
  assert (Hlt : INR f < INR n) by now apply lt_INR.
  assert (Hp : 0 < INR f / INR n) by now apply Rdiv_lt_0_compat.
  assert (Hp1 : INR f / INR n < 1).
  { apply Rmult_lt_reg_r with (INR n); [assumption |].
    unfold Rdiv. rewrite Rmult_assoc, Rinv_l by lra. lra. }
  assert (Hln : ln (INR f / INR n) < 0).
  { rewrite <- ln_1. now apply ln_increasing. }
  pose proof ln_2_pos as H2.
  assert (Hq : ln (INR f / INR n) / ln 2 < 0).
  { unfold Rdiv. rewrite <- (Rmult_0_l (/ ln 2)).
    apply Rmult_lt_compat_r; [now apply Rinv_0_lt_compat | assumption]. }
  rewrite <- (Rmult_0_r (INR f / INR n)).
  apply Rmult_lt_compat_l; assumption.
Qed.

Lemma py_sum_neg (xs : list R) (x : R) :
  Forall (fun y => y <= 0) xs -> In x xs -> x < 0 -> py_sum xs < 0.
Proof.
  induction 1 as [|y xs Hy H IH]; intros Hin Hx; [contradiction |].
  rewrite py_sum_cons. destruct Hin as [->|Hin].
  - pose proof (py_sum_nonpos xs H). lra.
  - specialize (IH Hin Hx). lra.
Qed.

Close Scope R_scope.

Lemma count_if_lt {A : Type} (p : A -> bool) (l : list A) (d : A) :
  In d l -> p d = false -> count_if p l < length l.
Proof.
  unfold count_if. induction l as [|x l IH]; intros Hin Hp; [contradiction |].
  simpl. destruct Hin as [->|Hin].
  - rewrite Hp. pose proof (filter_length_le p l). lia.
  - specialize (IH Hin Hp). destruct (p x); simpl; lia.
Qed.

Lemma count_if_all {A : Type} (p : A -> bool) (l : list A) :
  (forall x, In x l -> p x = true) -> count_if p l = length l.
Proof.
  unfold count_if. induction l as [|x l IH]; intros H; [reflexivity |].
  simpl. rewrite (H x) by now left. simpl. f_equal. apply IH.
  intros y Hy. apply H. now right.
Qed.

Lemma nodup_single {A : Type} (l : list A) (c : A) :
  NoDup l -> In c l -> (forall x, In x l -> x = c) -> l = [c].
Proof.
  intros Hnd Hin Hall. destruct l as [|x l]; [contradiction |].
  assert (x = c) by (apply Hall; now left). subst x.
  destruct l as [|y l]; [reflexivity |].
  assert (y = c) by (apply Hall; right; now left). subst y.
  inversion Hnd as [|? ? Hn _]. exfalso. apply Hn. now left.
Qed.

(** X15. The entropy of a string is 0 exactly when all its characters are
    the same (or it is empty); otherwise it is positive. *)
Theorem shannon_entropy_zero :
  forall s : str,
    exists h : R,
      shannon_entropy s = Ok h
      /\ (0 <= h)%R
      /\ (h = 0%R <-> forall c d, In c s -> In d s -> c = d).
Proof.
  intros s. eexists. split; [apply shannon_entropy_ok |].
  split; [destruct s; [lra | apply entropy_nonneg, chr_eqb_spec] |].
  destruct s as [|c0 s]; [split; [intros _ c d [] | reflexivity] |].
  set (t := c0 :: s).
  destruct (tally_tallies ascii chr_eqb chr_eqb_spec t) as (Hnd & Hin & _).
  pose proof (tally_values ascii chr_eqb chr_eqb_spec t) as Hval.
  split.
  - intros H c d Hc Hd.
    destruct (ascii_dec c d) as [E|Hne]; [exact E | exfalso].
    assert (Hneg : (py_sum (map (plogp (length t)) (dict_values (tally chr_eqb t)))
                    < 0)%R).
    { apply py_sum_neg with (plogp (length t) (count_if (chr_eqb c) t)).
      - apply Forall_forall. intros x Hx. apply in_map_iff in Hx.
        destruct Hx as [f [<- Hf]]. apply plogp_nonpos. split.
        + pose proof (tally_pos ascii chr_eqb t) as Hpos.
          rewrite Forall_forall in Hpos. now apply Hpos.
        + rewrite Hval in Hf. apply in_map_iff in Hf.
          destruct Hf as [k [<- _]]. apply filter_length_le.
      - apply in_map. rewrite Hval. apply in_map_iff. exists c.
        split; [reflexivity | now apply Hin].
      - apply plogp_neg. split.
        + apply count_if_pos with c; [assumption |].
          destruct (chr_eqb_spec c c); [reflexivity | congruence].
        + apply count_if_lt with d; [assumption |].
          destruct (chr_eqb_spec c d); [congruence | reflexivity]. }
    lra.
  - intros Hall.
    assert (Hk : dict_keys ascii (tally chr_eqb t) = [c0]).
    { apply nodup_single; [exact Hnd | apply Hin; now left |].
      intros x Hx. apply Hall; [now apply Hin | now left]. }
    rewrite Hval, Hk. cbn [map].
    rewrite count_if_all.
    + rewrite py_sum_cons, plogp_all. unfold py_sum. simpl. lra.
    + intros x Hx. rewrite (Hall x c0 Hx (or_introl eq_refl)).
      destruct (chr_eqb_spec c0 c0); [reflexivity | congruence].
Qed.

(** ** One-character n-grams *)

Section TallyMap.

Variable K1 K2 : Type.
Variable eqb1 : K1 -> K1 -> bool.
Variable eqb2 : K2 -> K2 -> bool.
Variable f : K1 -> K2.
Hypothesis f_eqb : forall x y, eqb2 (f x) (f y) = eqb1 x y.

Lemma dict_get_map (d : list (K1 * nat)) (x : K1) :
  dict_get eqb2 (map (fun kv => (f (fst kv), snd kv)) d) (f x) 0
  = dict_get eqb1 d x 0.
Proof.
  induction d as [|[k v] d IH]; simpl; [reflexivity |].
  rewrite f_eqb, IH. reflexivity.
Qed.

Lemma dict_set_map (d : list (K1 * nat)) (x : K1) (v : nat) :
  dict_set eqb2 (map (fun kv => (f (fst kv), snd kv)) d) (f x) v
  = map (fun kv => (f (fst kv), snd kv)) (dict_set eqb1 d x v).
Proof.
  induction d as [|[k w] d IH]; simpl; [reflexivity |].
  rewrite f_eqb. destruct (eqb1 k x); simpl; [reflexivity |].
  now rewrite IH.
Qed.

Lemma tally_map_values (xs : list K1) :
  dict_values (tally eqb2 (map f xs)) = dict_values (tally eqb1 xs).
Proof.
  unfold tally.
  assert (H : forall d,
            fold_left (fun freq x => dict_set eqb2 freq x (dict_get eqb2 freq x 0 + 1))
              (map f xs) (map (fun kv => (f (fst kv), snd kv)) d)
            = map (fun kv => (f (fst kv), snd kv))
                (fold_left (fun freq x => dict_set eqb1 freq x
                                            (dict_get eqb1 freq x 0 + 1)) xs d)).
  { induction xs as [|x xs IH]; intros d; simpl; [reflexivity |].
    rewrite dict_get_map, dict_set_map. apply IH. }
  specialize (H []). simpl in H. rewrite H.
  unfold dict_values. rewrite map_map. reflexivity.
Qed.

End TallyMap.

Lemma ngrams_1 (s : str) : s <> [] -> ngrams s 1 = map (fun c => [c]) s.
Proof.
  intros Hne. unfold ngrams, slice.
  replace (length s - 1 + 1) with (length s)
    by (destruct s; [congruence | simpl; lia]).
  clear Hne. induction s as [|c s IH]; [reflexivity |].
  cbn [length]. rewrite <- cons_seq, <- seq_shift, map_cons, map_map.
  cbn [map skipn firstn]. f_equal. exact IH.
Qed.

Lemma singleton_eqb (x y : ascii) : str_eqb [x] [y] = chr_eqb x y.
Proof. simpl. apply andb_true_r. Qed.

(** X16. The entropy of the one-character n-grams of a string is its
    Shannon entropy. *)
Theorem unigram_entropy :
  forall s : str, char_ngram_entropy s 1 = shannon_entropy s.
Proof.
  intros s. rewrite char_ngram_entropy_ok, shannon_entropy_ok.
  destruct s as [|c s]; [reflexivity |].
  change (length (c :: s) <? 1)%nat with false. cbv iota.
  rewrite ngrams_1 by discriminate.
  rewrite (tally_map_values ascii str chr_eqb str_eqb (fun c => [c]) singleton_eqb).
  rewrite length_map. reflexivity.
Qed.

(** ** The assembled data set *)





